(** * Krypt: a shallow embedding of [lib/krypt.js]

    The module wraps Node's [crypto] primitives (random bytes, PBKDF2,
    AES-256-CBC) into four operations, [encrypt], [decrypt], [encryptAsync]
    and [decryptAsync], over a mutable session object.  The primitives are
    external to the module: they are collected in a [Platform] record and
    the properties the proofs need of them are collected in [PlatformOK],
    for a cipher that gives every text back, and in [PlatformReads], for a
    cipher that gives back the text as it read it.

    JavaScript values are modelled dynamically, as the code uses them:
    truthiness, [||] defaulting, strict equality with [32], property access
    on objects.  Numbers stored in objects are the integers; the quotient
    [keyLength / 8] handed to the primitives is kept exact as a rational.
    Objects are plain objects holding scalars: a finite map of the own
    properties, under the properties all objects inherit.  A string is held
    as its bytes in generalised UTF-8: text as its UTF-8 bytes, and a
    surrogate code unit that has no partner as the three bytes [ED],
    [A0]..[BF], [80]..[BF] of its code point.

    The operations run in a state and exception monad over a [World]: the
    session object [this], the random source, the log of the calls that
    leave the module (primitives and completion callbacks, oldest first),
    and the key derivations in flight.  [crypto.pbkdf2] puts a derivation in
    flight; a turn of the event loop, [run_next], ends the oldest one and
    runs the function it was given.  A completion callback returns or
    throws, and touches nothing of the world. *)

From Stdlib Require Import ZArith QArith String List.
From stdpp Require Import base option gmap strings.

Local Open Scope Z_scope.
Local Open Scope string_scope.
Local Open Scope list_scope.

(** ** JavaScript values *)

Inductive scalar :=
| SUndefined
| SNull
| SBool (b : bool)
| SNum (n : Z)
| SStr (s : string).

#[export] Instance scalar_eq_dec : EqDecision scalar.
Proof. solve_decision. Defined.

Abbreviation object := (gmap string scalar).

Inductive value :=
| Prim (s : scalar)
| Obj (o : object).

Abbreviation bytes := (list Byte.byte).

(** A number as the primitives receive it. *)
Inductive number :=
| NaN
| Finite (q : Q).

(** An [Error] object: [new Error(m)] has name ["Error"]. *)
Record exn := JsError { name : string; message : string }.

Definition Error (m : string) : exn := JsError "Error" m.

(** [String(err)], which is what ['...' + err] appends
    ([Error.prototype.toString]). *)
Definition exn_to_string (e : exn) : string :=
  if String.eqb (name e) "" then message e
  else if String.eqb (message e) "" then name e
  else name e ++ ": " ++ message e.

Definition scalar_eqb (a b : scalar) : bool :=
  match a, b with
  | SUndefined, SUndefined => true
  | SNull, SNull => true
  | SBool x, SBool y => Bool.eqb x y
  | SNum x, SNum y => Z.eqb x y
  | SStr x, SStr y => String.eqb x y
  | _, _ => false
  end.

(** [!!v] *)
Definition truthy (v : scalar) : bool :=
  match v with
  | SUndefined | SNull => false
  | SBool b => b
  | SNum n => negb (Z.eqb n 0)
  | SStr s => negb (String.eqb s "")
  end.

Definition truthy_value (v : value) : bool :=
  match v with
  | Prim s => truthy s
  | Obj _ => true
  end.

(** [a || b] *)
Definition js_or (a b : scalar) : scalar := if truthy a then a else b.

(** [o.k] on a plain object, for a key that is not the name of an
    inherited property: [undefined] when [k] is not a property. *)
Definition get (o : object) (k : string) : scalar := default SUndefined (o !! k).

(** [v.k] on any value: a [TypeError] on [undefined] and [null],
    [undefined] on the other primitives for the keys used here. *)
Definition get_prop (v : value) (k : string) : exn + scalar :=
  match v with
  | Prim SUndefined =>
      inl (JsError "TypeError" ("Cannot read property '" ++ k ++ "' of undefined"))
  | Prim SNull =>
      inl (JsError "TypeError" ("Cannot read property '" ++ k ++ "' of null"))
  | Prim _ => inr SUndefined
  | Obj o => inr (get o k)
  end.

(** The names of the properties every plain object inherits from
    [Object.prototype]. *)
Definition Object_prototype : list string :=
  ["constructor"; "toString"; "toLocaleString"; "valueOf"; "hasOwnProperty";
   "isPrototypeOf"; "propertyIsEnumerable"; "__proto__"; "__defineGetter__";
   "__defineSetter__"; "__lookupGetter__"; "__lookupSetter__"].

Definition inherited (k : string) : bool := bool_decide (k ∈ Object_prototype).

(** [o[k] === undefined], the read going through the prototype chain as
    [_.defaults] makes it: an own property counts with its value, and a
    name that is not an own property resolves to what [Object.prototype]
    has under it, a function, which is not [undefined]. *)
Definition resolves_undefined (o : object) (k : string) : bool :=
  match o !! k with
  | Some v => scalar_eqb v SUndefined
  | None => negb (inherited k)
  end.

(** [_.defaults(dst, src)]: every own property of [src] whose key resolves
    to [undefined] in [dst] is copied into [dst]. *)
Definition defaults (dst src : object) : object :=
  map_fold (fun k v acc =>
              if resolves_undefined acc k then <[k:=v]> acc else acc)
           dst src.

(** [_.defaults(dst, v)] for a source [v] that is a scalar: a source that
    is not an object is skipped. *)
Definition defaults_scalar (dst : object) (v : scalar) : object := dst.

(** ** The session object *)

Record Krypt := mkKrypt {
  iterations : scalar;
  keyLength : scalar;
  defaultSecret : scalar;
  context : object
}.

Record Config := mkConfig {
  cfg_iterations : scalar;
  cfg_keyLength : scalar;
  cfg_secret : scalar;
  cfg_context : option object
}.

Definition CIPHER : string := "aes-256-cbc".
Definition KEY_DERIVATION : string := "pbkdf2".
Definition DEFAULT_KEY_LENGTH : Z := 256.
Definition DEFAULT_ITERATIONS : Z := 64000.

Definition empty_config : Config :=
  {| cfg_iterations := SUndefined; cfg_keyLength := SUndefined;
     cfg_secret := SUndefined; cfg_context := None |}.

(** [new Krypt(config)] *)
Definition new_Krypt (config : option Config) : Krypt :=
  let config := default empty_config config in
  {| iterations := js_or (cfg_iterations config) (SNum DEFAULT_ITERATIONS);
     keyLength := js_or (cfg_keyLength config) (SNum DEFAULT_KEY_LENGTH);
     defaultSecret := cfg_secret config;
     context := default ∅ (cfg_context config) |}.

Definition setSecret (secret : scalar) (this : Krypt) : Krypt :=
  {| iterations := iterations this; keyLength := keyLength this;
     defaultSecret := secret; context := context this |}.

Definition setIterations (n : scalar) (this : Krypt) : Krypt :=
  {| iterations := n; keyLength := keyLength this;
     defaultSecret := defaultSecret this; context := context this |}.

Definition setKeyLength (n : scalar) (this : Krypt) : Krypt :=
  {| iterations := iterations this; keyLength := n;
     defaultSecret := defaultSecret this; context := context this |}.

Definition setContext (c : object) (this : Krypt) : Krypt :=
  {| iterations := iterations this; keyLength := keyLength this;
     defaultSecret := defaultSecret this; context := c |}.

(** The legacy check, [if (kl === 32) kl = kl * 8]: [===] holds of the
    number 32 only. *)
Definition legacy (kl : scalar) : scalar :=
  match kl with
  | SNum n => if Z.eqb n 32 then SNum (n * 8) else kl
  | _ => kl
  end.

(** The Legacy Normalizer as the specification words it: a key length that
    equals exactly 32 is read as 256, any other value is left as it is. *)
Definition normalized (kl : scalar) : scalar :=
  if decide (kl = SNum 32) then SNum 256 else kl.

(** ** The platform *)

Inductive kdf_outcome :=
| KdfThrow (e : exn)   (** rejected arguments: thrown by the call itself *)
| KdfFail (e : exn)    (** failed derivation: thrown by [pbkdf2Sync],
                           passed as [err] by [pbkdf2] *)
| KdfKey (key : bytes).

Record Platform := {
  Rng : Type;
  Cipher : Type;
  Decipher : Type;
  (** [crypto.randomBytes(n)] *)
  randomBytes : number -> Rng -> (exn + bytes) * Rng;
  (** the derivation behind [crypto.pbkdf2Sync] and [crypto.pbkdf2] *)
  pbkdf2 : scalar -> bytes -> scalar -> number -> kdf_outcome;
  (** the receiver [crypto.pbkdf2] gives its callback *)
  kdf_this : value;
  createCipheriv : string -> bytes -> bytes -> exn + Cipher;
  (** [cipher.update(x, 'utf8', 'base64')] *)
  cipher_update : Cipher -> scalar -> exn + (string * Cipher);
  (** [cipher.final('base64')] *)
  cipher_final : Cipher -> exn + string;
  createDecipheriv : string -> bytes -> bytes -> exn + Decipher;
  (** [decipher.update(x, 'base64', 'utf8')] *)
  decipher_update : Decipher -> scalar -> exn + (string * Decipher);
  (** [decipher.final('utf8')] *)
  decipher_final : Decipher -> exn + string;
  (** [buf.toString('base64')] *)
  toBase64 : bytes -> string;
  (** [new Buffer(x, 'base64')] *)
  newBuffer : scalar -> exn + bytes;
  (** [JSON.parse(x)], [None] when it throws *)
  JSON_parse : scalar -> option value;
  (** the number a string converts to *)
  StringToNumber : string -> number
}.

(** ** Effects: the world, and a state and exception monad over it *)

(** What a completion callback is called with: [cb(err)] or
    [cb(null, result)]. *)
Inductive cb_args :=
| CbErr (e : exn)
| CbResult (v : value).

(** A completion callback, as far as the module can tell: it returns
    ([None]) or throws. *)
Definition callback := cb_args -> option exn.

(** The calls that leave the module. *)
Inductive event :=
| EvRandomBytes (n : number)
| EvPbkdf2 (secret : scalar) (salt : bytes) (iters : scalar) (keylen : number)
| EvCreateCipheriv (key iv : bytes)
| EvCreateDecipheriv (key iv : bytes)
| EvCallback (a : cb_args).

(** The two function expressions handed to [crypto.pbkdf2], with the
    variables they close over. *)
Inductive continuation :=
| EncryptCont (input : scalar) (iv salt : bytes) (cb : callback)
| DecryptCont (input_value : scalar) (iv : bytes) (cb : callback).

(** A key derivation in flight. *)
Record job := mkJob {
  job_secret : scalar;
  job_salt : bytes;
  job_iterations : scalar;
  job_keylen : number;
  job_cont : continuation
}.

Section Model.

Context (P : Platform).

Record World := mkWorld {
  this : Krypt;
  rng : Rng P;
  log : list event;
  queue : list job
}.

Definition M (A : Type) : Type := World -> (exn + A) * World.

#[local] Instance M_ret : MRet M := fun A a w => (inr a, w).

#[local] Instance M_bind : MBind M := fun A B f m w =>
  match m w with
  | (inl e, w') => (inl e, w')
  | (inr a, w') => f a w'
  end.

Definition throw {A} (e : exn) : M A := fun w => (inl e, w).

(** [try { m } catch (err) { h err }] *)
Definition try_catch {A} (m : M A) (h : exn -> M A) : M A := fun w =>
  match m w with
  | (inl e, w') => h e w'
  | r => r
  end.

Definition lift {A} (r : exn + A) : M A := fun w => (r, w).

Definition get_this : M Krypt := fun w => (inr (this w), w).

Definition set_this (k : Krypt) : M unit := fun w =>
  (inr tt, {| this := k; rng := rng w; log := log w; queue := queue w |}).

Definition emit (e : event) : M unit := fun w =>
  (inr tt, {| this := this w; rng := rng w; log := log w ++ [e]; queue := queue w |}).

Definition enqueue (j : job) : M unit := fun w =>
  (inr tt, {| this := this w; rng := rng w; log := log w; queue := queue w ++ [j] |}).

(** ** The primitives, as calls *)

Definition ToNumber (v : scalar) : number :=
  match v with
  | SUndefined => NaN
  | SNull => Finite 0
  | SBool b => Finite (if b then 1 else 0)
  | SNum n => Finite (inject_Z n)
  | SStr s => StringToNumber P s
  end.

(** [v / 8] *)
Definition div8 (v : scalar) : number :=
  match ToNumber v with
  | NaN => NaN
  | Finite q => Finite (Qred (q / 8))
  end.

Definition crypto_randomBytes (n : number) : M bytes := fun w =>
  let '(r, g) := randomBytes P n (rng w) in
  (r, {| this := this w; rng := g; log := log w ++ [EvRandomBytes n];
         queue := queue w |}).

Definition crypto_pbkdf2Sync (secret : scalar) (salt : bytes) (iters : scalar)
    (keylen : number) : M bytes :=
  emit (EvPbkdf2 secret salt iters keylen);;
  match pbkdf2 P secret salt iters keylen with
  | KdfThrow e | KdfFail e => throw e
  | KdfKey key => mret key
  end.

(** [crypto.pbkdf2(secret, salt, iters, keylen, k)]: rejected arguments
    throw at once, otherwise the derivation is started and [k] is called
    when it ends. *)
Definition crypto_pbkdf2 (secret : scalar) (salt : bytes) (iters : scalar)
    (keylen : number) (k : continuation) : M unit :=
  emit (EvPbkdf2 secret salt iters keylen);;
  match pbkdf2 P secret salt iters keylen with
  | KdfThrow e => throw e
  | _ => enqueue (mkJob secret salt iters keylen k)
  end.

Definition crypto_createCipheriv (alg : string) (key iv : bytes) : M (Cipher P) :=
  emit (EvCreateCipheriv key iv);; lift (createCipheriv P alg key iv).

Definition crypto_createDecipheriv (alg : string) (key iv : bytes) : M (Decipher P) :=
  emit (EvCreateDecipheriv key iv);; lift (createDecipheriv P alg key iv).

(** [cb(a)] *)
Definition call (cb : callback) (a : cb_args) : M unit :=
  emit (EvCallback a);;
  match cb a with
  | Some e => throw e
  | None => mret tt
  end.

(** ** The operations *)

(** [if (this.keyLength === 32) this.keyLength = this.keyLength * 8] *)
Definition legacy_check_this : M unit :=
  k ← get_this;
  if scalar_eqb (keyLength k) (SNum 32)
  then set_this (setKeyLength (legacy (keyLength k)) k)
  else mret tt.

(** The object literal [result] of [encrypt] and [encryptAsync]. *)
Definition envelope (kl its : scalar) (iv salt : bytes) (encryptedValue : string)
    : object :=
  <["cipher" := SStr CIPHER]>
  (<["keyDerivation" := SStr KEY_DERIVATION]>
  (<["keyLength" := kl]>
  (<["iterations" := its]>
  (<["iv" := SStr (toBase64 P iv)]>
  (<["salt" := SStr (toBase64 P salt)]>
  (<["value" := SStr encryptedValue]> ∅)))))).

Definition encrypt (input secret : scalar) : M object :=
  if negb (truthy input) then
    throw (Error "You must provide a value to encrypt")
  else
    k ← get_this;
    let secret := js_or secret (defaultSecret k) in
    if negb (truthy secret) then
      throw (Error "A 'secret' is required to encrypt")
    else
      legacy_check_this;;
      k ← get_this;
      salt ← crypto_randomBytes (div8 (keyLength k));
      iv ← crypto_randomBytes (Finite 16);
      try_catch
        (k ← get_this;
         key ← crypto_pbkdf2Sync secret salt (iterations k) (div8 (keyLength k));
         cipher ← crypto_createCipheriv CIPHER key iv;
         '(encryptedValue, cipher) ← lift (cipher_update P cipher input);
         final ← lift (cipher_final P cipher);
         let encryptedValue := (encryptedValue ++ final)%string in
         k ← get_this;
         let result :=
           envelope (keyLength k) (iterations k) iv salt encryptedValue in
         mret (defaults result (context k)))
        (fun err =>
           throw (Error ("Unable to encrypt value due to: " ++ exn_to_string err)%string)).

(** [if (typeof input !== 'object') input = JSON.parse(input)], [None]
    when the parse throws.  The input is truthy here, so an input that is
    not an object is not [null] either. *)
Definition resolve (input : value) : option value :=
  match input with
  | Obj _ => Some input
  | Prim s => JSON_parse P s
  end.

Definition decrypt (input : value) (secret : scalar) : M string :=
  if negb (truthy_value input) then
    throw (Error "You must provide a value to decrypt")
  else
    k ← get_this;
    let secret := js_or secret (defaultSecret k) in
    if negb (truthy secret) then
      throw (Error "A 'secret' is required to decrypt")
    else
      match resolve input with
      | None => throw (Error "Unable to parse string input as JSON")
      | Some input =>
          input_iv ← lift (get_prop input "iv");
          input_salt ← lift (get_prop input "salt");
          input_value ← lift (get_prop input "value");
          if negb (truthy input_iv) || negb (truthy input_salt)
             || negb (truthy input_value) then
            throw (Error "Input must be a valid object with 'iv', 'salt', and 'value' properties")
          else
            salt ← lift (newBuffer P input_salt);
            iv ← lift (newBuffer P input_iv);
            input_keyLength ← lift (get_prop input "keyLength");
            input_iterations ← lift (get_prop input "iterations");
            k ← get_this;
            let keyLength := js_or input_keyLength (keyLength k) in
            let iterations := js_or input_iterations (iterations k) in
            let keyLength := legacy keyLength in
            try_catch
              (key ← crypto_pbkdf2Sync secret salt iterations (div8 keyLength);
               decipher ← crypto_createDecipheriv CIPHER key iv;
               '(decryptedValue, decipher) ← lift (decipher_update P decipher input_value);
               final ← lift (decipher_final P decipher);
               mret (decryptedValue ++ final)%string)
              (fun err =>
                 throw (Error ("Unable to decrypt value due to: " ++ exn_to_string err)%string))
      end.

Definition encryptAsync (input secret : scalar) (cb : callback) : M unit :=
  if negb (truthy input) then
    call cb (CbErr (Error "You must provide a value to encrypt"))
  else
    k ← get_this;
    let secret := js_or secret (defaultSecret k) in
    if negb (truthy secret) then
      call cb (CbErr (Error "A 'secret' is required to encrypt"))
    else
      legacy_check_this;;
      k ← get_this;
      salt ← crypto_randomBytes (div8 (keyLength k));
      iv ← crypto_randomBytes (Finite 16);
      k ← get_this;
      crypto_pbkdf2 secret salt (iterations k) (div8 (keyLength k))
        (EncryptCont input iv salt cb).

(** [function(err, key) { ... }] of [encryptAsync]; [this] in it is the
    receiver the platform calls it with. *)
Definition encryptAsync_done (input : scalar) (iv salt : bytes) (cb : callback)
    (r : exn + bytes) : M unit :=
  match r with
  | inl err =>
      call cb (CbErr (Error ("Unable to encrypt value due to: " ++ exn_to_string err)%string))
  | inr key =>
      try_catch
        (cipher ← crypto_createCipheriv CIPHER key iv;
         '(encryptedValue, cipher) ← lift (cipher_update P cipher input);
         final ← lift (cipher_final P cipher);
         let encryptedValue := (encryptedValue ++ final)%string in
         this_keyLength ← lift (get_prop (kdf_this P) "keyLength");
         this_iterations ← lift (get_prop (kdf_this P) "iterations");
         let result :=
           envelope this_keyLength this_iterations iv salt encryptedValue in
         this_context ← lift (get_prop (kdf_this P) "context");
         let result := defaults_scalar result this_context in
         call cb (CbResult (Obj result)))
        (fun err =>
           call cb (CbErr (Error ("Unable to encrypt value due to: " ++ exn_to_string err)%string)))
  end.

Definition decryptAsync (input : value) (secret : scalar) (cb : callback) : M unit :=
  if negb (truthy_value input) then
    call cb (CbErr (Error "You must provide a value to decrypt"))
  else
    k ← get_this;
    let secret := js_or secret (defaultSecret k) in
    if negb (truthy secret) then
      call cb (CbErr (Error "A 'secret' is required to decrypt"))
    else
      match resolve input with
      | None => call cb (CbErr (Error "Unable to parse string input as JSON"))
      | Some input =>
          input_iv ← lift (get_prop input "iv");
          input_salt ← lift (get_prop input "salt");
          input_value ← lift (get_prop input "value");
          if negb (truthy input_iv) || negb (truthy input_salt)
             || negb (truthy input_value) then
            call cb (CbErr (Error "Input must be a valid object with 'iv', 'salt', and 'value' properties"))
          else
            salt ← lift (newBuffer P input_salt);
            iv ← lift (newBuffer P input_iv);
            input_keyLength ← lift (get_prop input "keyLength");
            input_iterations ← lift (get_prop input "iterations");
            k ← get_this;
            let keyLength := js_or input_keyLength (keyLength k) in
            let iterations := js_or input_iterations (iterations k) in
            let keyLength := legacy keyLength in
            crypto_pbkdf2 secret salt iterations (div8 keyLength)
              (DecryptCont input_value iv cb)
      end.

(** [function(err, key) { ... }] of [decryptAsync]. *)
Definition decryptAsync_done (input_value : scalar) (iv : bytes) (cb : callback)
    (r : exn + bytes) : M unit :=
  match r with
  | inl err =>
      call cb (CbErr (Error ("Unable to decrypt value due to: " ++ exn_to_string err)%string))
  | inr key =>
      try_catch
        (decipher ← crypto_createDecipheriv CIPHER key iv;
         '(decryptedValue, decipher) ← lift (decipher_update P decipher input_value);
         final ← lift (decipher_final P decipher);
         let decryptedValue := (decryptedValue ++ final)%string in
         call cb (CbResult (Prim (SStr decryptedValue))))
        (fun err =>
           call cb (CbErr (Error ("Unable to decrypt value due to: " ++ exn_to_string err)%string)))
  end.

(** ** The event loop *)

Definition run_cont (k : continuation) (r : exn + bytes) : M unit :=
  match k with
  | EncryptCont input iv salt cb => encryptAsync_done input iv salt cb r
  | DecryptCont input_value iv cb => decryptAsync_done input_value iv cb r
  end.

(** What a derivation in flight ends with: [(err, key)]. *)
Definition job_result (j : job) : exn + bytes :=
  match pbkdf2 P (job_secret j) (job_salt j) (job_iterations j) (job_keylen j) with
  | KdfKey key => inr key
  | KdfThrow e | KdfFail e => inl e
  end.

(** One turn of the loop: the oldest derivation ends and its callback
    runs. *)
Definition run_next : M unit := fun w =>
  match queue w with
  | [] => (inr tt, w)
  | j :: q =>
      run_cont (job_cont j) (job_result j)
        {| this := this w; rng := rng w; log := log w; queue := q |}
  end.

(** The completion callbacks called, oldest first. *)
Definition callbacks (l : list event) : list cb_args :=
  omap (fun e => match e with EvCallback a => Some a | _ => None end) l.

End Model.

Arguments this {P} _.
Arguments rng {P} _.
Arguments log {P} _.
Arguments queue {P} _.
Arguments mkWorld {P} _ _ _ _.

(** ** What the proofs assume of the primitives *)

Record PlatformOK (P : Platform) : Prop := {
  (** [randomBytes(n)] gives [n] bytes *)
  randomBytes_ok : forall (n : nat) (g : Rng P),
    exists bs g', randomBytes P (Finite (inject_Z (Z.of_nat n))) g = (inr bs, g')
                  /\ length bs = n;
  (** a passphrase, a salt, a positive count and a positive length give a
      key of that length *)
  pbkdf2_ok : forall (s : string) (salt : bytes) (it : Z) (n : nat),
    s <> "" -> 0 < it -> (0 < n)%nat ->
    exists key, pbkdf2 P (SStr s) salt (SNum it) (Finite (inject_Z (Z.of_nat n)))
                = KdfKey key /\ length key = n;
  (** under a 32-byte key and a 16-byte IV, AES-256-CBC encrypts every text
      to a non-empty ciphertext, and deciphering that gives the text back *)
  cipher_ok : forall (key iv : bytes) (p : string),
    length key = 32%nat -> length iv = 16%nat ->
    exists c c' s1 s2 d d' t1 t2,
      createCipheriv P CIPHER key iv = inr c
      /\ cipher_update P c (SStr p) = inr (s1, c')
      /\ cipher_final P c' = inr s2
      /\ (s1 ++ s2)%string <> ""
      /\ createDecipheriv P CIPHER key iv = inr d
      /\ decipher_update P d (SStr (s1 ++ s2)%string) = inr (t1, d')
      /\ decipher_final P d' = inr t2
      /\ (t1 ++ t2)%string = p;
  (** base64 decodes what it encodes, and encodes no byte to nothing *)
  base64_ok : forall bs : bytes, newBuffer P (SStr (toBase64 P bs)) = inr bs;
  base64_nonempty : forall bs : bytes, bs <> [] -> toBase64 P bs <> ""
}.

(** ** Text as the cipher reads it

    [cipher.update(input, 'utf8', 'base64')] encodes the text in UTF-8
    before encrypting it, and [decipher.update(.., 'base64', 'utf8')] and
    [decipher.final('utf8')] decode the bytes back.  UTF-8 has no encoding
    for a surrogate without a partner: the encoder writes the replacement
    character U+FFFD, bytes [EF BF BD], in its place. *)

(** The first two bytes of a surrogate code point written in three bytes:
    [ED], then [A0] to [BF]. *)
Definition surrogate_lead (a b : Ascii.ascii) : bool :=
  Nat.eqb (Ascii.nat_of_ascii a) 237
  && Nat.leb 160 (Ascii.nat_of_ascii b) && Nat.leb (Ascii.nat_of_ascii b) 191.

Definition replacement_character : string :=
  String (Ascii.ascii_of_nat 239) (String (Ascii.ascii_of_nat 191)
    (String (Ascii.ascii_of_nat 189) EmptyString)).

(** The text the UTF-8 encoder keeps of a string: every surrogate without
    a partner is replaced. *)
Fixpoint utf8 (s : string) : string :=
  match s with
  | EmptyString => EmptyString
  | String a s' =>
      match s' with
      | String b (String c rest) =>
          if surrogate_lead a b
          then (replacement_character ++ utf8 rest)%string
          else String a (utf8 s')
      | _ => String a (utf8 s')
      end
  end.

(** Text that holds no surrogate without a partner. *)
Definition well_formed (p : string) : Prop := utf8 p = p.

(** The string of one code unit, the surrogate U+D800. *)
Definition lone_surrogate : string :=
  String (Ascii.ascii_of_nat 237) (String (Ascii.ascii_of_nat 160)
    (String (Ascii.ascii_of_nat 128) EmptyString)).

(** [PlatformOK] with a cipher that gives back [read p] for the text [p]:
    [PlatformOK] itself when [read] changes nothing, Node's primitives
    when [read] is [utf8]. *)
Record PlatformReads (P : Platform) (read : string -> string) : Prop := {
  reads_randomBytes : forall (n : nat) (g : Rng P),
    exists bs g', randomBytes P (Finite (inject_Z (Z.of_nat n))) g = (inr bs, g')
                  /\ length bs = n;
  reads_pbkdf2 : forall (s : string) (salt : bytes) (it : Z) (n : nat),
    s <> "" -> 0 < it -> (0 < n)%nat ->
    exists key, pbkdf2 P (SStr s) salt (SNum it) (Finite (inject_Z (Z.of_nat n)))
                = KdfKey key /\ length key = n;
  (** under a 32-byte key and a 16-byte IV, AES-256-CBC encrypts every text
      to a non-empty ciphertext, and deciphering that gives back the text
      as it was read *)
  reads_cipher : forall (key iv : bytes) (p : string),
    length key = 32%nat -> length iv = 16%nat ->
    exists c c' s1 s2 d d' t1 t2,
      createCipheriv P CIPHER key iv = inr c
      /\ cipher_update P c (SStr p) = inr (s1, c')
      /\ cipher_final P c' = inr s2
      /\ (s1 ++ s2)%string <> ""
      /\ createDecipheriv P CIPHER key iv = inr d
      /\ decipher_update P d (SStr (s1 ++ s2)%string) = inr (t1, d')
      /\ decipher_final P d' = inr t2
      /\ (t1 ++ t2)%string = read p;
  reads_base64 : forall bs : bytes, newBuffer P (SStr (toBase64 P bs)) = inr bs;
  reads_base64_nonempty : forall bs : bytes, bs <> [] -> toBase64 P bs <> ""
}.

(** ** A small platform to run the model on

    Deterministic stand-ins for the primitives: a counter for the random
    source, a key cut from passphrase and salt, a cipher that tags the text
    with key and IV and refuses a ciphertext carrying another tag. *)

Module Toy.

Definition nat_size (n : number) : option nat :=
  match n with
  | Finite (Qmake (Zpos p) 1) => Some (Pos.to_nat p)
  | Finite (Qmake Z0 1) => Some O
  | _ => None
  end.

Definition byte_of_nat (g : nat) : Byte.byte :=
  default Byte.x00 (Byte.of_nat (g mod 256)).

Definition randomBytes (n : number) (g : nat) : (exn + bytes) * nat :=
  match nat_size n with
  | Some k => (inr (repeat (byte_of_nat g) k), S g)
  | None => (inl (JsError "RangeError" "size must be a number >= 0"), g)
  end.

Definition pbkdf2 (secret : scalar) (salt : bytes) (iters : scalar)
    (keylen : number) : kdf_outcome :=
  match secret, iters, nat_size keylen with
  | SStr s, SNum it, Some k =>
      if (0 <? it)%Z then
        KdfKey (firstn k (list_byte_of_string s ++ salt ++ repeat Byte.x00 k))
      else KdfThrow (JsError "TypeError" "Bad iterations")
  | SStr _, SNum _, None => KdfThrow (JsError "TypeError" "Bad key length")
  | SStr _, _, _ => KdfThrow (JsError "TypeError" "Iterations not a number")
  | _, _, _ => KdfThrow (JsError "TypeError" "Not a buffer")
  end.

Definition tag (key iv : bytes) : string :=
  ("#" ++ string_of_list_byte (key ++ iv))%string.

Fixpoint strip_prefix (pre s : string) : option string :=
  match pre with
  | EmptyString => Some s
  | String a pre' =>
      match s with
      | String b s' => if Ascii.eqb a b then strip_prefix pre' s' else None
      | EmptyString => None
      end
  end.

Definition createCipheriv (alg : string) (key iv : bytes) : exn + (bytes * bytes) :=
  if negb (Nat.eqb (length key) 32) then inl (Error "Invalid key length")
  else if negb (Nat.eqb (length iv) 16) then inl (Error "Invalid IV length")
  else inr (key, iv).

Definition cipher_update (c : bytes * bytes) (x : scalar)
    : exn + (string * (bytes * bytes)) :=
  match x with
  | SStr p => inr ((tag (fst c) (snd c) ++ p)%string, c)
  | _ => inl (JsError "TypeError" "Not a string or buffer")
  end.

(** The same with the text read as UTF-8. *)
Definition cipher_update_utf8 (c : bytes * bytes) (x : scalar)
    : exn + (string * (bytes * bytes)) :=
  match x with
  | SStr p => cipher_update c (SStr (utf8 p))
  | _ => cipher_update c x
  end.

Definition cipher_final (c : bytes * bytes) : exn + string := inr "".

Definition createDecipheriv (alg : string) (key iv : bytes)
    : exn + (bytes * bytes * string) :=
  match createCipheriv alg key iv with
  | inl e => inl e
  | inr c => inr (c, "")
  end.

Definition decipher_update (d : bytes * bytes * string) (x : scalar)
    : exn + (string * (bytes * bytes * string)) :=
  match x with
  | SStr v => inr ("", (fst d, v))
  | _ => inl (JsError "TypeError" "Not a string or buffer")
  end.

Definition decipher_final (d : bytes * bytes * string) : exn + string :=
  match strip_prefix (tag (fst (fst d)) (snd (fst d))) (snd d) with
  | Some p => inr p
  | None => inl (Error "bad decrypt")
  end.

Definition newBuffer (x : scalar) : exn + bytes :=
  match x with
  | SStr s => inr (list_byte_of_string s)
  | SNum n => inr (repeat Byte.x00 (Z.to_nat n))
  | _ => inl (JsError "TypeError" "must start with number, buffer, array or string")
  end.

(** A parser for the few texts the examples use. *)
Definition JSON_parse (x : scalar) : option value :=
  match x with
  | SStr s =>
      if String.eqb s "null" then Some (Prim SNull)
      else if String.eqb s "{}" then Some (Obj ∅)
      else None
  | SNum n => Some (Prim (SNum n))
  | SBool b => Some (Prim (SBool b))
  | _ => None
  end.

Definition StringToNumber (s : string) : number :=
  if String.eqb s "" then Finite 0 else NaN.

End Toy.

(** The platform, for a given receiver of the derivation's callback. *)
Definition toy (receiver : value) : Platform :=
  {| Rng := nat;
     Cipher := bytes * bytes;
     Decipher := bytes * bytes * string;
     randomBytes := Toy.randomBytes;
     pbkdf2 := Toy.pbkdf2;
     kdf_this := receiver;
     createCipheriv := Toy.createCipheriv;
     cipher_update := Toy.cipher_update;
     cipher_final := Toy.cipher_final;
     createDecipheriv := Toy.createDecipheriv;
     decipher_update := Toy.decipher_update;
     decipher_final := Toy.decipher_final;
     toBase64 := string_of_list_byte;
     newBuffer := Toy.newBuffer;
     JSON_parse := Toy.JSON_parse;
     StringToNumber := Toy.StringToNumber |}.

(** The callback is a plain function call in strict mode: no receiver. *)
Definition toy_strict : Platform := toy (Prim SUndefined).

(** The platform with a cipher that reads its text as UTF-8, as Node's
    does. *)
Definition toy_utf8 : Platform :=
  {| Rng := nat;
     Cipher := bytes * bytes;
     Decipher := bytes * bytes * string;
     randomBytes := Toy.randomBytes;
     pbkdf2 := Toy.pbkdf2;
     kdf_this := Obj ∅;
     createCipheriv := Toy.createCipheriv;
     cipher_update := Toy.cipher_update_utf8;
     cipher_final := Toy.cipher_final;
     createDecipheriv := Toy.createDecipheriv;
     decipher_update := Toy.decipher_update;
     decipher_final := Toy.decipher_final;
     toBase64 := string_of_list_byte;
     newBuffer := Toy.newBuffer;
     JSON_parse := Toy.JSON_parse;
     StringToNumber := Toy.StringToNumber |}.

(** A callback that returns. *)
Definition quiet : callback := fun _ => None.

(** A callback that throws when handed a result. *)
Definition fussy : callback := fun a =>
  match a with
  | CbResult _ => Some (Error "callback failed")
  | CbErr _ => None
  end.

Definition toy_world (P : Platform) (k : Krypt) (g : Rng P) : World P :=
  mkWorld k g [] [].


(** ** The errors the module raises

    The module has one error class, [Error]; what kind of failure an error
    reports is told by its message. *)

Inductive ValidationError : exn -> Prop :=
| no_value_to_encrypt :
    ValidationError (Error "You must provide a value to encrypt")
| no_secret_to_encrypt :
    ValidationError (Error "A 'secret' is required to encrypt")
| no_value_to_decrypt :
    ValidationError (Error "You must provide a value to decrypt")
| no_secret_to_decrypt :
    ValidationError (Error "A 'secret' is required to decrypt")
| unparsable_input :
    ValidationError (Error "Unable to parse string input as JSON")
| incomplete_input :
    ValidationError
      (Error "Input must be a valid object with 'iv', 'salt', and 'value' properties").

(** The calls [encrypt] rejects, with the error each is rejected with. *)
Inductive encrypt_invalid (k : Krypt) (input secret : scalar) : exn -> Prop :=
| enc_no_input :
    truthy input = false ->
    encrypt_invalid k input secret (Error "You must provide a value to encrypt")
| enc_no_secret :
    truthy input = true ->
    truthy (js_or secret (defaultSecret k)) = false ->
    encrypt_invalid k input secret (Error "A 'secret' is required to encrypt").

(** The calls [decrypt] rejects, with the error each is rejected with. *)
Inductive decrypt_invalid (P : Platform) (k : Krypt) (input : value) (secret : scalar)
    : exn -> Prop :=
| dec_no_input :
    truthy_value input = false ->
    decrypt_invalid P k input secret (Error "You must provide a value to decrypt")
| dec_no_secret :
    truthy_value input = true ->
    truthy (js_or secret (defaultSecret k)) = false ->
    decrypt_invalid P k input secret (Error "A 'secret' is required to decrypt")
| dec_bad_json :
    truthy_value input = true ->
    truthy (js_or secret (defaultSecret k)) = true ->
    resolve P input = None ->
    decrypt_invalid P k input secret (Error "Unable to parse string input as JSON")
| dec_not_object (v : scalar) :
    truthy_value input = true ->
    truthy (js_or secret (defaultSecret k)) = true ->
    resolve P input = Some (Prim v) ->
    v <> SUndefined -> v <> SNull ->
    decrypt_invalid P k input secret
      (Error "Input must be a valid object with 'iv', 'salt', and 'value' properties")
| dec_no_field (o : object) :
    truthy_value input = true ->
    truthy (js_or secret (defaultSecret k)) = true ->
    resolve P input = Some (Obj o) ->
    truthy (get o "iv") && truthy (get o "salt") && truthy (get o "value") = false ->
    decrypt_invalid P k input secret
      (Error "Input must be a valid object with 'iv', 'salt', and 'value' properties").

(** The session [encrypt] and [encryptAsync] leave behind: the legacy check
    is made on it once plaintext and secret have passed their checks. *)
Definition checked_session (input secret : scalar) (k : Krypt) : Krypt :=
  if truthy input && truthy secret
  then setKeyLength (legacy (keyLength k)) k
  else k.

(** The seven fields [encrypt] writes itself. *)
Definition core_fields : list string :=
  ["cipher"; "keyDerivation"; "keyLength"; "iterations"; "iv"; "salt"; "value"].

(** The world with another session object in it. *)
Definition with_session {P : Platform} (k : Krypt) (w : World P) : World P :=
  mkWorld k (rng w) (log w) (queue w).

(** The five envelope fields [decrypt] and [decryptAsync] read. *)
Definition read_fields : list string :=
  ["iv"; "salt"; "value"; "keyLength"; "iterations"].

(** * Properties *)

(** ** Objects *)

Lemma scalar_eqb_eq (a b : scalar) : scalar_eqb a b = true <-> a = b.
Proof.
  destruct a, b; simpl; split; intros H; try congruence; try reflexivity.
  - f_equal. by apply Bool.eqb_prop.
  - injection H as ->. apply Bool.eqb_reflx.
  - f_equal. by apply Z.eqb_eq.
  - injection H as ->. apply Z.eqb_refl.
  - f_equal. by apply String.eqb_eq.
  - injection H as ->. apply String.eqb_refl.
Qed.

(** What [_.defaults] leaves under each key. *)
Lemma lookup_defaults (dst src : object) (k : string) :
  defaults dst src !! k =
    if resolves_undefined dst k
    then match src !! k with Some v => Some v | None => dst !! k end
    else dst !! k.
Proof.
  unfold defaults. revert k.
  apply (map_fold_weak_ind
    (fun (r : object) (m : object) => forall k,
       r !! k = if resolves_undefined dst k
                then match m !! k with Some v => Some v | None => dst !! k end
                else dst !! k)).
  - intros k. rewrite lookup_empty. by destruct (resolves_undefined _ _).
  - intros i x m r Hi IH k.
    assert (Hr : resolves_undefined r i = resolves_undefined dst i).
    { unfold resolves_undefined at 1. rewrite (IH i), Hi.
      unfold resolves_undefined.
      destruct (dst !! i) as [v|]; [|by destruct (inherited i)].
      by destruct (scalar_eqb v SUndefined) eqn:E. }
    rewrite Hr. destruct (decide (i = k)) as [->|Hne].
    + rewrite lookup_insert_eq.
      destruct (resolves_undefined dst k) eqn:E.
      * by rewrite lookup_insert_eq.
      * by rewrite (IH k), E.
    + rewrite (lookup_insert_ne m) by done.
      destruct (resolves_undefined dst i).
      * rewrite lookup_insert_ne by done. apply IH.
      * apply IH.
Qed.

(** A key that is defined in the destination keeps its value. *)
Lemma defaults_keeps (dst src : object) (k : string) :
  get dst k <> SUndefined -> defaults dst src !! k = dst !! k.
Proof.
  intros H. rewrite lookup_defaults. unfold resolves_undefined.
  unfold get in H. destruct (dst !! k) as [v|]; [|done]. cbn in H.
  destruct (scalar_eqb v SUndefined) eqn:E; [|done].
  by apply scalar_eqb_eq in E.
Qed.

(** A key that the destination lacks takes the source's value, unless it
    is the name of an inherited property, which is passed over. *)
Lemma defaults_fills (dst src : object) (k : string) :
  dst !! k = None ->
  defaults dst src !! k = if inherited k then None else src !! k.
Proof.
  intros H. rewrite lookup_defaults. unfold resolves_undefined. rewrite H.
  destruct (inherited k); cbn; [done|]. by destruct (src !! k).
Qed.

(** ** The legacy check *)

Lemma legacy_32 : legacy (SNum 32) = SNum 256.
Proof. reflexivity. Qed.

Lemma legacy_other (kl : scalar) : kl <> SNum 32 -> legacy kl = kl.
Proof.
  intros H. destruct kl as [| |b|n|s]; try reflexivity. simpl.
  destruct (Z.eqb_spec n 32) as [->|]; [congruence|reflexivity].
Qed.

(** The check of the code is the normalizer of the specification. *)
Lemma legacy_normalized (kl : scalar) : legacy kl = normalized kl.
Proof.
  unfold normalized. destruct (decide (kl = SNum 32)) as [->|H].
  - reflexivity.
  - by apply legacy_other.
Qed.

(** ** The toy platform has the properties assumed of a platform *)

Lemma append_empty_r (s : string) : (s ++ "")%string = s.
Proof.
  induction s as [|a s IH]; [reflexivity|].
  change (String a (s ++ "")%string = String a s). by rewrite IH.
Qed.

Lemma strip_prefix_app (pre s : string) :
  Toy.strip_prefix pre (pre ++ s)%string = Some s.
Proof.
  induction pre as [|a pre IH]; [reflexivity|].
  change (String a pre ++ s)%string with (String a (pre ++ s)%string).
  cbn [Toy.strip_prefix]. by rewrite Ascii.eqb_refl.
Qed.

Lemma nat_size_of_nat (n : nat) :
  Toy.nat_size (Finite (inject_Z (Z.of_nat n))) = Some n.
Proof.
  destruct n as [|n]; [reflexivity|].
  unfold inject_Z. simpl. by rewrite SuccNat2Pos.id_succ.
Qed.

Lemma toy_ok (receiver : value) : PlatformOK (toy receiver).
Proof.
  split.
  - intros n g. cbn [randomBytes toy]. unfold Toy.randomBytes.
    rewrite nat_size_of_nat.
    eexists _, _. split; [reflexivity|]. apply repeat_length.
  - intros s salt it n Hs Hit Hn. cbn [pbkdf2 toy]. unfold Toy.pbkdf2.
    rewrite nat_size_of_nat.
    destruct (Z.ltb_spec 0 it) as [_|]; [|lia].
    eexists. split; [reflexivity|].
    rewrite length_firstn, !length_app, repeat_length. lia.
  - intros key iv p Hk Hiv.
    cbn [createCipheriv cipher_update cipher_final createDecipheriv
         decipher_update decipher_final toy].
    unfold Toy.createDecipheriv, Toy.createCipheriv.
    rewrite Hk, Hiv. cbn [Nat.eqb negb].
    eexists _, _, _, _, _, _, _, _.
    split; [reflexivity|]. split; [reflexivity|]. split; [reflexivity|].
    split; [discriminate|]. split; [reflexivity|]. split; [reflexivity|].
    split; [|reflexivity].
    unfold Toy.decipher_final. cbn [fst snd].
    by rewrite append_empty_r, strip_prefix_app.
  - intros bs. cbn [newBuffer toBase64 toy]. unfold Toy.newBuffer.
    by rewrite list_byte_of_string_of_list_byte.
  - intros [|b bs] H; [done|]. cbn. discriminate.
Qed.

Lemma toy_utf8_reads : PlatformReads toy_utf8 utf8.
Proof.
  split.
  - intros n g. cbn [randomBytes toy_utf8]. unfold Toy.randomBytes.
    rewrite nat_size_of_nat.
    eexists _, _. split; [reflexivity|]. apply repeat_length.
  - intros s salt it n Hs Hit Hn. cbn [pbkdf2 toy_utf8]. unfold Toy.pbkdf2.
    rewrite nat_size_of_nat.
    destruct (Z.ltb_spec 0 it) as [_|]; [|lia].
    eexists. split; [reflexivity|].
    rewrite length_firstn, !length_app, repeat_length. lia.
  - intros key iv p Hk Hiv.
    cbn [createCipheriv cipher_update cipher_final createDecipheriv
         decipher_update decipher_final toy_utf8].
    unfold Toy.createDecipheriv, Toy.createCipheriv.
    rewrite Hk, Hiv. cbn [Nat.eqb negb].
    eexists _, _, _, _, _, _, _, _.
    split; [reflexivity|]. split; [reflexivity|]. split; [reflexivity|].
    split; [discriminate|]. split; [reflexivity|]. split; [reflexivity|].
    split; [|reflexivity].
    unfold Toy.decipher_final. cbn [fst snd].
    by rewrite append_empty_r, strip_prefix_app.
  - intros bs. cbn [newBuffer toBase64 toy_utf8]. unfold Toy.newBuffer.
    by rewrite list_byte_of_string_of_list_byte.
  - intros [|b bs] H; [done|]. cbn. discriminate.
Qed.

(** A platform whose cipher gives every text back. *)
Lemma PlatformOK_reads (P : Platform) :
  PlatformOK P -> PlatformReads P (fun p => p).
Proof. intros [H1 H2 H3 H4 H5]. by split. Qed.

(** ** Running the operations *)

(** The legacy check leaves the session with its key length put through
    [legacy], whether it assigns or not. *)
Lemma legacy_check_this_run (P : Platform) (w : World P) :
  legacy_check_this P w =
    (inr tt, mkWorld (setKeyLength (legacy (keyLength (this w))) (this w))
               (rng w) (log w) (queue w)).
Proof.
  unfold legacy_check_this, mbind, M_bind, get_this, set_this, mret, M_ret.
  destruct w as [[its kl sec ctx] g l q]. cbn [this keyLength rng log queue].
  destruct (scalar_eqb kl (SNum 32)) eqn:E; [reflexivity|].
  destruct kl as [| |b|n|s]; try reflexivity.
  cbn in E. cbn [legacy]. by rewrite E.
Qed.

Ltac unfold_monad :=
  repeat progress
    (rewrite ?legacy_check_this_run;
     unfold mbind, M_bind, mret, M_ret, get_this, set_this, emit, enqueue,
       throw, lift, try_catch, crypto_randomBytes,
       crypto_pbkdf2Sync, crypto_pbkdf2, crypto_createCipheriv,
       crypto_createDecipheriv, call;
     cbn [this rng log queue negb]).

(** Unfold, compute the record projections, use the equations at hand. *)
Ltac run :=
  repeat progress
    (unfold_monad;
     cbn [this rng log queue negb orb fst snd setKeyLength keyLength iterations
          context defaultSecret job_cont job_secret job_salt job_iterations
          job_keylen];
     repeat match goal with
            | H : ?l = _ |- context [?l] => rewrite H
            end).

(** Case analysis on the next result the run depends on. *)
Ltac crack :=
  repeat (run;
          match goal with
          | |- context [match ?x with _ => _ end] =>
              lazymatch x with
              | context [match _ with _ => _ end] => fail
              | _ => destruct x eqn:?
              end
          end);
  run.

Section Steps.

Context (P : Platform).

(** [encrypt] when every step succeeds. *)
Lemma encrypt_run (w : World P) (input secret : scalar)
    (salt iv key : bytes) (g1 g2 : Rng P) (c c' : Cipher P) (s1 s2 : string) :
  let sec := js_or secret (defaultSecret (this w)) in
  let kl := legacy (keyLength (this w)) in
  let its := iterations (this w) in
  truthy input = true ->
  truthy sec = true ->
  randomBytes P (div8 P kl) (rng w) = (inr salt, g1) ->
  randomBytes P (Finite 16) g1 = (inr iv, g2) ->
  pbkdf2 P sec salt its (div8 P kl) = KdfKey key ->
  createCipheriv P CIPHER key iv = inr c ->
  cipher_update P c input = inr (s1, c') ->
  cipher_final P c' = inr s2 ->
  encrypt P input secret w =
    (inr (defaults (envelope P kl its iv salt (s1 ++ s2)%string) (context (this w))),
     mkWorld (setKeyLength kl (this w)) g2
       (log w ++ [EvRandomBytes (div8 P kl); EvRandomBytes (Finite 16);
                  EvPbkdf2 sec salt its (div8 P kl); EvCreateCipheriv key iv])
       (queue w)).
Proof.
  intros sec kl its Hin Hsec Hsalt Hiv Hkey Hc Hu Hf. subst sec kl its.
  unfold encrypt. run. by rewrite <- !app_assoc.
Qed.

(** [encrypt] returns only when every step succeeded. *)
Lemma encrypt_inv (w w' : World P) (input secret : scalar) (env : object) :
  encrypt P input secret w = (inr env, w') ->
  let sec := js_or secret (defaultSecret (this w)) in
  let kl := legacy (keyLength (this w)) in
  let its := iterations (this w) in
  exists salt iv key g1 g2 c c' s1 s2,
    truthy input = true
    /\ truthy sec = true
    /\ randomBytes P (div8 P kl) (rng w) = (inr salt, g1)
    /\ randomBytes P (Finite 16) g1 = (inr iv, g2)
    /\ pbkdf2 P sec salt its (div8 P kl) = KdfKey key
    /\ createCipheriv P CIPHER key iv = inr c
    /\ cipher_update P c input = inr (s1, c')
    /\ cipher_final P c' = inr s2
    /\ env = defaults (envelope P kl its iv salt (s1 ++ s2)%string) (context (this w))
    /\ w' = mkWorld (setKeyLength kl (this w)) g2
              (log w ++ [EvRandomBytes (div8 P kl); EvRandomBytes (Finite 16);
                         EvPbkdf2 sec salt its (div8 P kl); EvCreateCipheriv key iv])
              (queue w).
Proof.
  intros H sec kl its. subst sec kl its. revert H.
  unfold encrypt. crack; intros [= <- <-].
  apply negb_false_iff in Heqb, Heqb0.
  eexists l, l0, key, r, r0, c, c0, s1, s2.
  rewrite <- !app_assoc. repeat split; done.
Qed.

(** [encrypt] once its checks have passed, whatever happens next: the
    session's key length has been put through the legacy check, the salt
    was asked with that length, and when both draws succeed the derivation
    is asked with it too. *)
Lemma encrypt_asks (w : World P) (input secret : scalar) :
  let sec := js_or secret (defaultSecret (this w)) in
  let kl := legacy (keyLength (this w)) in
  let its := iterations (this w) in
  truthy input = true ->
  truthy sec = true ->
  exists r g evs,
    encrypt P input secret w =
      (r, mkWorld (setKeyLength kl (this w)) g
            (log w ++ EvRandomBytes (div8 P kl) :: evs) (queue w))
    /\ forall salt g1 iv g2,
          randomBytes P (div8 P kl) (rng w) = (inr salt, g1) ->
          randomBytes P (Finite 16) g1 = (inr iv, g2) ->
          exists evs', evs = EvRandomBytes (Finite 16)
                             :: EvPbkdf2 sec salt its (div8 P kl) :: evs'.
Proof.
  intros sec kl its Hin Hsec. subst sec kl its.
  unfold encrypt. rewrite Hin. cbn [negb]. run.
  replace (negb (truthy (js_or secret (defaultSecret (this w))))) with false
    by (symmetry; by apply negb_false_iff).
  crack; eexists _, _, _; (split; [by rewrite <- ?app_assoc|]);
    intros; simplify_eq; try congruence; by eexists.
Qed.

(** [encryptAsync] likewise. *)
Lemma encryptAsync_asks (w : World P) (input secret : scalar) (cb : callback) :
  let sec := js_or secret (defaultSecret (this w)) in
  let kl := legacy (keyLength (this w)) in
  let its := iterations (this w) in
  truthy input = true ->
  truthy sec = true ->
  exists r g evs q,
    encryptAsync P input secret cb w =
      (r, mkWorld (setKeyLength kl (this w)) g
            (log w ++ EvRandomBytes (div8 P kl) :: evs) q)
    /\ forall salt g1 iv g2,
          randomBytes P (div8 P kl) (rng w) = (inr salt, g1) ->
          randomBytes P (Finite 16) g1 = (inr iv, g2) ->
          evs = [EvRandomBytes (Finite 16); EvPbkdf2 sec salt its (div8 P kl)].
Proof.
  intros sec kl its Hin Hsec. subst sec kl its.
  unfold encryptAsync. rewrite Hin. cbn [negb]. run.
  replace (negb (truthy (js_or secret (defaultSecret (this w))))) with false
    by (symmetry; by apply negb_false_iff).
  crack; eexists _, _, _, _; (split; [by rewrite <- ?app_assoc|]);
    intros; simplify_eq; try congruence; reflexivity.
Qed.

(** [decrypt] on an envelope that passes the checks and decodes: the
    derivation it asks for, and what follows from its outcome. *)
Lemma decrypt_checked (w : World P) (input : value) (secret : scalar)
    (o : object) (salt iv : bytes) :
  let sec := js_or secret (defaultSecret (this w)) in
  let kl := legacy (js_or (get o "keyLength") (keyLength (this w))) in
  let its := js_or (get o "iterations") (iterations (this w)) in
  truthy_value input = true ->
  truthy sec = true ->
  resolve P input = Some (Obj o) ->
  truthy (get o "iv") = true ->
  truthy (get o "salt") = true ->
  truthy (get o "value") = true ->
  newBuffer P (get o "salt") = inr salt ->
  newBuffer P (get o "iv") = inr iv ->
  exists r evs,
    decrypt P input secret w =
      (r, mkWorld (this w) (rng w)
            (log w ++ EvPbkdf2 sec salt its (div8 P kl) :: evs) (queue w))
    /\ forall key d d' t1 t2,
          pbkdf2 P sec salt its (div8 P kl) = KdfKey key ->
          createDecipheriv P CIPHER key iv = inr d ->
          decipher_update P d (get o "value") = inr (t1, d') ->
          decipher_final P d' = inr t2 ->
          r = inr (t1 ++ t2)%string.
Proof.
  intros sec kl its Hin Hsec Hres Hiv Hsalt Hval Hbs Hbi. subst sec kl its.
  unfold decrypt. rewrite Hin, Hres. cbn [get_prop]. run.
  replace (negb (truthy (js_or secret (defaultSecret (this w))))) with false
    by (symmetry; by apply negb_false_iff).
  crack; eexists _, _; (split; [by rewrite <- ?app_assoc|]);
    intros; simplify_eq; congruence.
Qed.

(** [decryptAsync] on the same envelope asks for the same derivation. *)
Lemma decryptAsync_checked (w : World P) (input : value) (secret : scalar)
    (cb : callback) (o : object) (salt iv : bytes) :
  let sec := js_or secret (defaultSecret (this w)) in
  let kl := legacy (js_or (get o "keyLength") (keyLength (this w))) in
  let its := js_or (get o "iterations") (iterations (this w)) in
  truthy_value input = true ->
  truthy sec = true ->
  resolve P input = Some (Obj o) ->
  truthy (get o "iv") = true ->
  truthy (get o "salt") = true ->
  truthy (get o "value") = true ->
  newBuffer P (get o "salt") = inr salt ->
  newBuffer P (get o "iv") = inr iv ->
  exists r q,
    decryptAsync P input secret cb w =
      (r, mkWorld (this w) (rng w)
            (log w ++ [EvPbkdf2 sec salt its (div8 P kl)]) q).
Proof.
  intros sec kl its Hin Hsec Hres Hiv Hsalt Hval Hbs Hbi. subst sec kl its.
  unfold decryptAsync. rewrite Hin, Hres. cbn [get_prop]. run.
  replace (negb (truthy (js_or secret (defaultSecret (this w))))) with false
    by (symmetry; by apply negb_false_iff).
  crack; by eexists _, _.
Qed.

End Steps.

(** ** Validation *)

(** What the checks of [encrypt] and [decrypt] catch (no plaintext or
    envelope, no secret as argument or session default, text that does not
    parse as JSON, a parsed number, string or boolean, an object without
    [iv], [salt] or [value]) throws the validation error of its case, and
    leaves the world as it was: no random bytes were drawn and no
    derivation or cipher was called.  A text that parses to [null] is not
    among the calls [decrypt_invalid] lists, and is not caught. *)
Theorem validation_before_crypto (P : Platform) (w : World P) :
  (forall input secret e,
     encrypt_invalid (this w) input secret e ->
     encrypt P input secret w = (inl e, w) /\ ValidationError e)
  /\ (forall input secret e,
        decrypt_invalid P (this w) input secret e ->
        decrypt P input secret w = (inl e, w) /\ ValidationError e).
Proof.
  split; intros input secret e H.
  - destruct H; (split; [|constructor]); unfold encrypt; run; reflexivity.
  - destruct H as [Hin|Hin Hs|Hin Hs Hr|v Hin Hs Hr Hu Hn|o Hin Hs Hr Hf];
      (split; [|constructor]); unfold decrypt; run; try reflexivity.
    { by destruct v. }
    cbn [get_prop]. run.
    apply andb_false_iff in Hf as [Hf|Hf]; [apply andb_false_iff in Hf as [Hf|Hf]|];
      rewrite Hf; cbn [negb orb]; by rewrite ?orb_true_r.
Qed.

(** C7 does not hold of the code on a text that parses to [null].  The
    call has a truthy input and a secret, the text parses, and the parsed
    value has none of [iv], [salt] and [value]: it is a validation failure
    of the claim's last kind.  [decrypt] reads [iv] on it before checking
    anything about it and throws what that read throws, a [TypeError],
    which is none of the validation errors.  No primitive was called. *)
Theorem null_text_not_validated (P : Platform) (w : World P) (s secret : scalar) :
  truthy s = true ->
  truthy (js_or secret (defaultSecret (this w))) = true ->
  JSON_parse P s = Some (Prim SNull) ->
  exists e,
    get_prop (Prim SNull) "iv" = inl e
    /\ decrypt P (Prim s) secret w = (inl e, w)
    /\ name e = "TypeError"
    /\ ~ ValidationError e.
Proof.
  intros Hs Hsec Hparse. eexists. split; [reflexivity|].
  split; [|split; [reflexivity|intros H; inversion H]].
  unfold decrypt. cbn [truthy_value resolve]. run. cbn [get_prop]. run.
  reflexivity.
Qed.

(** ** The session configuration *)

Section Frame.

Context (P : Platform).

Lemma encrypt_frame (w : World P) (input secret : scalar) :
  this (snd (encrypt P input secret w)) =
    checked_session input (js_or secret (defaultSecret (this w))) (this w).
Proof.
  unfold checked_session.
  destruct (truthy input) eqn:Hi,
    (truthy (js_or secret (defaultSecret (this w)))) eqn:Hs;
    cbn [andb]; unfold encrypt; crack; reflexivity.
Qed.

Lemma encryptAsync_frame (w : World P) (input secret : scalar) (cb : callback) :
  this (snd (encryptAsync P input secret cb w)) =
    checked_session input (js_or secret (defaultSecret (this w))) (this w).
Proof.
  unfold checked_session.
  destruct (truthy input) eqn:Hi,
    (truthy (js_or secret (defaultSecret (this w)))) eqn:Hs;
    cbn [andb]; unfold encryptAsync; crack; reflexivity.
Qed.

Lemma checked_session_fields (input secret : scalar) (k : Krypt) :
  let k' := checked_session input secret k in
  iterations k' = iterations k
  /\ defaultSecret k' = defaultSecret k
  /\ context k' = context k
  /\ keyLength k' =
       if truthy input && truthy secret then legacy (keyLength k) else keyLength k.
Proof. unfold checked_session. by destruct (truthy input && truthy secret). Qed.

Lemma decrypt_frame (w : World P) (input : value) (secret : scalar) :
  this (snd (decrypt P input secret w)) = this w.
Proof. unfold decrypt. crack; reflexivity. Qed.

Lemma decryptAsync_frame (w : World P) (input : value) (secret : scalar)
    (cb : callback) :
  this (snd (decryptAsync P input secret cb w)) = this w.
Proof. unfold decryptAsync. crack; reflexivity. Qed.

Lemma run_next_frame (w : World P) : this (snd (run_next P w)) = this w.
Proof.
  unfold run_next. destruct (queue w) as [|j q]; [reflexivity|].
  unfold run_cont, encryptAsync_done, decryptAsync_done.
  destruct (job_cont j); crack; reflexivity.
Qed.

End Frame.

(** C4, as stated, fails: a session configured with key length 32 has key
    length 256 after [encrypt]. *)
Lemma encrypt_rewrites_keyLength :
  let w := toy_world toy_strict (setKeyLength (SNum 32) (new_Krypt None)) 0%nat in
  keyLength (this w) = SNum 32
  /\ keyLength (this (snd (encrypt toy_strict (SStr "text") (SStr "secret") w)))
     = SNum 256.
Proof. split; vm_compute; reflexivity. Qed.

(** C4, amended: [decrypt] and [decryptAsync], and the completion of a
    derivation, leave the session configuration as it was; [encrypt] and
    [encryptAsync] leave [iterations], [defaultSecret] and [context] as they
    were, and leave [keyLength] as it was unless the plaintext and secret
    checks pass, when it is put through the legacy check (32 becomes 256,
    every other value stays). *)
Theorem session_configuration_frame (P : Platform) (w : World P) :
  (forall input secret,
     let k' := this (snd (encrypt P input secret w)) in
     iterations k' = iterations (this w)
     /\ defaultSecret k' = defaultSecret (this w)
     /\ context k' = context (this w)
     /\ keyLength k' =
          if truthy input && truthy (js_or secret (defaultSecret (this w)))
          then legacy (keyLength (this w)) else keyLength (this w))
  /\ (forall input secret cb,
        let k' := this (snd (encryptAsync P input secret cb w)) in
        iterations k' = iterations (this w)
        /\ defaultSecret k' = defaultSecret (this w)
        /\ context k' = context (this w)
        /\ keyLength k' =
             if truthy input && truthy (js_or secret (defaultSecret (this w)))
             then legacy (keyLength (this w)) else keyLength (this w))
  /\ (forall input secret, this (snd (decrypt P input secret w)) = this w)
  /\ (forall input secret cb,
        this (snd (decryptAsync P input secret cb w)) = this w)
  /\ this (snd (run_next P w)) = this w.
Proof.
  split; [|split; [|split; [|split]]]; intros.
  - subst k'. rewrite encrypt_frame. apply checked_session_fields.
  - subst k'. rewrite encryptAsync_frame. apply checked_session_fields.
  - apply decrypt_frame.
  - apply decryptAsync_frame.
  - apply run_next_frame.
Qed.

(** ** The envelope *)

Section Envelope.

Context (P : Platform).

Lemma envelope_lookup (kl its : scalar) (iv salt : bytes) (v : string) (k : string) :
  envelope P kl its iv salt v !! k =
    if String.eqb k "cipher" then Some (SStr CIPHER)
    else if String.eqb k "keyDerivation" then Some (SStr KEY_DERIVATION)
    else if String.eqb k "keyLength" then Some kl
    else if String.eqb k "iterations" then Some its
    else if String.eqb k "iv" then Some (SStr (toBase64 P iv))
    else if String.eqb k "salt" then Some (SStr (toBase64 P salt))
    else if String.eqb k "value" then Some (SStr v)
    else None.
Proof.
  unfold envelope.
  repeat match goal with
         | |- context [String.eqb k ?f] =>
             destruct (String.eqb_spec k f) as [->|?];
             [by simplify_map_eq|rewrite lookup_insert_ne by done]
         end.
  apply lookup_empty.
Qed.

Lemma envelope_core (kl its : scalar) (iv salt : bytes) (v : string) (k : string) :
  k ∉ core_fields -> envelope P kl its iv salt v !! k = None.
Proof.
  intros H. rewrite envelope_lookup.
  repeat match goal with
         | |- context [String.eqb k ?f] =>
             destruct (String.eqb_spec k f) as [->|?];
             [exfalso; apply H; unfold core_fields; set_solver|]
         end.
  reflexivity.
Qed.

(** What is under each key of the envelope [encrypt] returns: a core field
    holds what [encrypt] computed, unless that is [undefined]; any other
    key holds what the context has for it, unless it is the name of an
    inherited property, which the envelope does not get. *)
Lemma merged_envelope_lookup (kl its : scalar) (iv salt : bytes) (v : string)
    (ctx : object) :
  kl <> SUndefined -> its <> SUndefined ->
  let core := envelope P kl its iv salt v in
  (forall k, k ∈ core_fields -> defaults core ctx !! k = core !! k)
  /\ (forall k, k ∉ core_fields ->
        defaults core ctx !! k = if inherited k then None else ctx !! k).
Proof.
  intros Hkl Hits core. split; intros k Hk.
  - apply defaults_keeps. unfold get, core. rewrite envelope_lookup.
    unfold core_fields in Hk.
    repeat (apply elem_of_cons in Hk as [->|Hk]; [by cbn|]).
    by apply elem_of_nil in Hk.
  - apply defaults_fills. by apply envelope_core.
Qed.

(** The core fields of the envelope [encrypt] returns. *)
Lemma merged_envelope_get (kl its : scalar) (iv salt : bytes) (v : string)
    (ctx : object) :
  kl <> SUndefined -> its <> SUndefined ->
  let env := defaults (envelope P kl its iv salt v) ctx in
  get env "cipher" = SStr CIPHER
  /\ get env "keyDerivation" = SStr KEY_DERIVATION
  /\ get env "keyLength" = kl
  /\ get env "iterations" = its
  /\ get env "iv" = SStr (toBase64 P iv)
  /\ get env "salt" = SStr (toBase64 P salt)
  /\ get env "value" = SStr v.
Proof.
  intros Hkl Hits env.
  destruct (merged_envelope_lookup kl its iv salt v ctx Hkl Hits) as [Hcore _].
  subst env. unfold get.
  repeat split; (rewrite Hcore by (unfold core_fields; set_solver));
    by rewrite envelope_lookup.
Qed.

(** The key length the envelope records, whatever the context. *)
Lemma merged_envelope_get_keyLength (kl its : scalar) (iv salt : bytes)
    (v : string) (ctx : object) :
  kl <> SUndefined ->
  get (defaults (envelope P kl its iv salt v) ctx) "keyLength" = kl.
Proof.
  intros Hkl. unfold get.
  rewrite defaults_keeps; rewrite ?envelope_lookup; by cbn.
Qed.

End Envelope.

(** ** The primitives on the default sizes *)

Section Pipeline.

Context (P : Platform) (read : string -> string) (HR : PlatformReads P read).

Lemma div8_256 : div8 P (SNum 256) = Finite 32.
Proof. reflexivity. Qed.

(** A 256-bit key, a 16-byte IV: what the primitives do for a passphrase
    [s], a count [it] and a text [p], from the random source at [g]. *)
Lemma pipeline_reads (g : Rng P) (s p : string) (it : Z) :
  s <> "" -> 0 < it ->
  exists salt g1 iv g2 key c c' s1 s2 d d' t1 t2,
    randomBytes P (Finite 32) g = (inr salt, g1)
    /\ length salt = 32%nat
    /\ randomBytes P (Finite 16) g1 = (inr iv, g2)
    /\ length iv = 16%nat
    /\ pbkdf2 P (SStr s) salt (SNum it) (Finite 32) = KdfKey key
    /\ length key = 32%nat
    /\ createCipheriv P CIPHER key iv = inr c
    /\ cipher_update P c (SStr p) = inr (s1, c')
    /\ cipher_final P c' = inr s2
    /\ (s1 ++ s2)%string <> ""
    /\ createDecipheriv P CIPHER key iv = inr d
    /\ decipher_update P d (SStr (s1 ++ s2)%string) = inr (t1, d')
    /\ decipher_final P d' = inr t2
    /\ (t1 ++ t2)%string = read p.
Proof.
  intros Hs Hit.
  destruct (reads_randomBytes P read HR 32 g) as (salt & g1 & Hsalt & Lsalt).
  destruct (reads_randomBytes P read HR 16 g1) as (iv & g2 & Hiv & Liv).
  destruct (reads_pbkdf2 P read HR s salt it 32 Hs Hit ltac:(lia))
    as (key & Hkey & Lkey).
  destruct (reads_cipher P read HR key iv p Lkey Liv)
    as (c & c' & s1 & s2 & d & d' & t1 & t2 & Hc).
  exists salt, g1, iv, g2, key, c, c', s1, s2, d, d', t1, t2.
  repeat split; try tauto; assumption.
Qed.

Lemma truthy_str (s : string) : s <> "" -> truthy (SStr s) = true.
Proof. intros H. cbn. by destruct (String.eqb_spec s ""). Qed.

Lemma truthy_num (n : Z) : n <> 0 -> truthy (SNum n) = true.
Proof. intros H. cbn. by destruct (Z.eqb_spec n 0). Qed.

Lemma nonempty_bytes (bs : bytes) (n : nat) :
  length bs = S n -> bs <> [].
Proof. by destruct bs. Qed.

(** A session [encrypt] can work with: a 256-bit key (written as 256 or,
    the old way, as 32) and a positive number of iterations. *)
Lemma encrypt_decrypt_reads (w : World P) (p s : string) (secret : scalar) (it : Z) :
  legacy (keyLength (this w)) = SNum 256 ->
  iterations (this w) = SNum it -> 0 < it ->
  js_or secret (defaultSecret (this w)) = SStr s ->
  p <> "" -> s <> "" ->
  exists env w' salt iv key v,
    encrypt P (SStr p) secret w = (inr env, w')
    /\ env = defaults (envelope P (SNum 256) (SNum it) iv salt v) (context (this w))
    /\ v <> "" /\ length salt = 32%nat /\ length iv = 16%nat /\ length key = 32%nat
    /\ w' = mkWorld (setKeyLength (SNum 256) (this w)) (rng w')
              (log w ++ [EvRandomBytes (Finite 32); EvRandomBytes (Finite 16);
                         EvPbkdf2 (SStr s) salt (SNum it) (Finite 32);
                         EvCreateCipheriv key iv])
              (queue w)
    /\ forall (w2 : World P) (secret2 : scalar),
         js_or secret2 (defaultSecret (this w2)) = SStr s ->
         fst (decrypt P (Obj env) secret2 w2) = inr (read p).
Proof.
  intros Hkl Hits Hit Hsec Hp Hs.
  destruct (pipeline_reads (rng w) s p it Hs Hit)
    as (salt & g1 & iv & g2 & key & c & c' & s1 & s2 & d & d' & t1 & t2
        & Hsalt & Lsalt & Hiv & Liv & Hkey & Lkey & Hc & Hu & Hf & Hne
        & Hd & Hdu & Hdf & Hrt).
  pose proof (encrypt_run P w (SStr p) secret salt iv key g1 g2 c c' s1 s2) as Hrun.
  cbn zeta in Hrun. rewrite Hkl, Hits, Hsec, div8_256 in Hrun.
  specialize (Hrun (truthy_str p Hp) (truthy_str s Hs) Hsalt Hiv Hkey Hc Hu Hf).
  destruct (merged_envelope_get P (SNum 256) (SNum it) iv salt (s1 ++ s2)%string
              (context (this w)) ltac:(done) ltac:(done))
    as (_ & _ & Hklv & Hitv & Hivv & Hsaltv & Hvalue).
  set (env := defaults (envelope P (SNum 256) (SNum it) iv salt (s1 ++ s2)%string)
                (context (this w))) in *.
  eexists env, _, salt, iv, key, (s1 ++ s2)%string.
  split; [exact Hrun|]. split; [reflexivity|]. split; [exact Hne|].
  split; [exact Lsalt|]. split; [exact Liv|]. split; [exact Lkey|].
  split; [reflexivity|].
  intros w2 secret2 Hsec2.
  destruct (decrypt_checked P w2 (Obj env) secret2 env salt iv) as (r & evs & Hdec & Hr).
  - reflexivity.
  - rewrite Hsec2. by apply truthy_str.
  - reflexivity.
  - rewrite Hivv. apply truthy_str, (reads_base64_nonempty P read HR),
      (nonempty_bytes _ _ Liv).
  - rewrite Hsaltv. apply truthy_str, (reads_base64_nonempty P read HR),
      (nonempty_bytes _ _ Lsalt).
  - rewrite Hvalue. by apply truthy_str.
  - rewrite Hsaltv. apply (reads_base64 P read HR).
  - rewrite Hivv. apply (reads_base64 P read HR).
  - rewrite Hdec. cbn [fst]. rewrite <- Hrt. apply (Hr key d d' t1 t2).
    + rewrite Hsec2, Hklv, Hitv. unfold js_or. rewrite (truthy_num it) by lia.
      cbn [truthy Z.eqb negb legacy]. exact Hkey.
    + exact Hd.
    + rewrite Hvalue. exact Hdu.
    + exact Hdf.
Qed.

End Pipeline.


Lemma encrypt_decrypt (P : Platform) (HP : PlatformOK P) (w : World P)
    (p s : string) (secret : scalar) (it : Z) :
  legacy (keyLength (this w)) = SNum 256 ->
  iterations (this w) = SNum it -> 0 < it ->
  js_or secret (defaultSecret (this w)) = SStr s ->
  p <> "" -> s <> "" ->
  exists env w' salt iv key v,
    encrypt P (SStr p) secret w = (inr env, w')
    /\ env = defaults (envelope P (SNum 256) (SNum it) iv salt v) (context (this w))
    /\ v <> "" /\ length salt = 32%nat /\ length iv = 16%nat /\ length key = 32%nat
    /\ w' = mkWorld (setKeyLength (SNum 256) (this w)) (rng w')
              (log w ++ [EvRandomBytes (Finite 32); EvRandomBytes (Finite 16);
                         EvPbkdf2 (SStr s) salt (SNum it) (Finite 32);
                         EvCreateCipheriv key iv])
              (queue w)
    /\ forall (w2 : World P) (secret2 : scalar),
         js_or secret2 (defaultSecret (this w2)) = SStr s ->
         fst (decrypt P (Obj env) secret2 w2) = inr p.
Proof.
  exact (encrypt_decrypt_reads P (fun p => p) (PlatformOK_reads P HP) w p s secret it).
Qed.

(** ** Round trip *)

(** C1, as claimed, fails on a text that is not well formed: the cipher
    reads its text as UTF-8, which has nothing for a surrogate without a
    partner.  [encrypt] of the one-unit string U+D800 returns an envelope,
    and [decrypt] of that envelope with the same secret returns another
    string, the replacement character. *)
Lemma lone_surrogate_not_returned :
  let w := toy_world toy_utf8 (new_Krypt None) 0%nat in
  lone_surrogate <> ""
  /\ match encrypt toy_utf8 (SStr lone_surrogate) (SStr "secret") w with
     | (inr env, w') =>
         fst (decrypt toy_utf8 (Obj env) (SStr "secret") w') = inr replacement_character
         /\ replacement_character <> lone_surrogate
     | (inl _, _) => False
     end.
Proof. split; [discriminate|]. vm_compute. split; [reflexivity|discriminate]. Qed.

(** C1, amended: on a platform that works and whose cipher reads its text
    as UTF-8, in a session [encrypt] can work with (a 256-bit key, a
    positive number of iterations), for every non-empty text [p] and
    non-empty secret [s], [encrypt p s] returns an envelope and [decrypt]
    of that envelope with [s] returns, in the session that encrypted and
    in any other, [p] as UTF-8 keeps it: [p] itself when [p] is well
    formed. *)
Theorem decrypt_encrypt (P : Platform) (w : World P) (p s : string) (it : Z) :
  PlatformReads P utf8 ->
  legacy (keyLength (this w)) = SNum 256 ->
  iterations (this w) = SNum it -> 0 < it ->
  p <> "" -> s <> "" ->
  exists env w',
    encrypt P (SStr p) (SStr s) w = (inr env, w')
    /\ (forall w2 : World P, fst (decrypt P (Obj env) (SStr s) w2) = inr (utf8 p))
    /\ (well_formed p ->
        fst (decrypt P (Obj env) (SStr s) w') = inr p
        /\ forall w2 : World P, fst (decrypt P (Obj env) (SStr s) w2) = inr p).
Proof.
  intros HR Hkl Hits Hit Hp Hs.
  assert (Hsec : forall k, js_or (SStr s) (defaultSecret k) = SStr s).
  { intros k. unfold js_or. by rewrite truthy_str. }
  destruct (encrypt_decrypt_reads P utf8 HR w p s (SStr s) it
              Hkl Hits Hit (Hsec _) Hp Hs)
    as (env & w' & salt & iv & key & v & Henc & _ & _ & _ & _ & _ & _ & Hdec).
  exists env, w'. split; [exact Henc|]. split.
  - intros w2. apply Hdec, Hsec.
  - intros Hwf. unfold well_formed in Hwf.
    split; [|intros w2]; rewrite <- Hwf; apply Hdec, Hsec.
Qed.

Lemma decrypt_encrypt_witness :
  exists env w',
    encrypt toy_utf8 (SStr "attack at dawn") (SStr "open sesame")
      (toy_world toy_utf8 (new_Krypt None) 3%nat) = (inr env, w')
    /\ fst (decrypt toy_utf8 (Obj env) (SStr "open sesame") w') = inr "attack at dawn"
    /\ forall w2 : World toy_utf8,
         fst (decrypt toy_utf8 (Obj env) (SStr "open sesame") w2) = inr "attack at dawn".
Proof.
  destruct (decrypt_encrypt toy_utf8 (toy_world toy_utf8 (new_Krypt None) 3%nat)
              "attack at dawn" "open sesame" 64000)
    as (env & w' & Henc & _ & Hwf).
  - apply toy_utf8_reads.
  - reflexivity.
  - reflexivity.
  - lia.
  - discriminate.
  - discriminate.
  - exists env, w'. split; [exact Henc|]. apply Hwf. reflexivity.
Defined.

(** C10: in the default session, [encrypt("hello world", "correct-horse")]
    returns an envelope with the two algorithm names, key length 256, 64000
    iterations, a base64 [iv] of 16 bytes, a base64 [salt] of 256/8 bytes and
    a non-empty [value]; [decrypt] of that envelope with ["correct-horse"]
    returns ["hello world"]. *)
Theorem end_to_end (P : Platform) (g : Rng P) :
  PlatformOK P ->
  let w := mkWorld (new_Krypt None) g [] [] in
  exists env w' salt iv v,
    encrypt P (SStr "hello world") (SStr "correct-horse") w = (inr env, w')
    /\ get env "cipher" = SStr "aes-256-cbc"
    /\ get env "keyDerivation" = SStr "pbkdf2"
    /\ get env "keyLength" = SNum 256
    /\ get env "iterations" = SNum 64000
    /\ get env "iv" = SStr (toBase64 P iv)
    /\ newBuffer P (get env "iv") = inr iv
    /\ Z.of_nat (length iv) = 16
    /\ get env "salt" = SStr (toBase64 P salt)
    /\ newBuffer P (get env "salt") = inr salt
    /\ Z.of_nat (length salt) = 256 / 8
    /\ get env "value" = SStr v /\ v <> ""
    /\ fst (decrypt P (Obj env) (SStr "correct-horse") w') = inr "hello world".
Proof.
  intros HP w.
  destruct (encrypt_decrypt P HP w "hello world" "correct-horse"
              (SStr "correct-horse") 64000)
    as (env & w' & salt & iv & key & v & Henc & Henv & Hv & Lsalt & Liv & _ & _ & Hdec);
    try reflexivity; try discriminate.
  destruct (merged_envelope_get P (SNum 256) (SNum 64000) iv salt v
              (context (this w)) ltac:(done) ltac:(done))
    as (Hc & Hkd & Hkl & Hit & Hiv & Hsalt & Hvalue).
  rewrite <- Henv in Hc, Hkd, Hkl, Hit, Hiv, Hsalt, Hvalue.
  exists env, w', salt, iv, v.
  split; [exact Henc|]. rewrite Hiv, Hsalt, !(base64_ok P HP), Liv, Lsalt.
  repeat split; try assumption; try reflexivity.
  by apply Hdec.
Qed.

Lemma end_to_end_witness :
  exists env w' salt iv v,
    encrypt toy_strict (SStr "hello world") (SStr "correct-horse")
      (mkWorld (P:=toy_strict) (new_Krypt None) 0%nat [] []) = (inr env, w')
    /\ get env "cipher" = SStr "aes-256-cbc"
    /\ get env "keyDerivation" = SStr "pbkdf2"
    /\ get env "keyLength" = SNum 256
    /\ get env "iterations" = SNum 64000
    /\ get env "iv" = SStr (toBase64 toy_strict iv)
    /\ newBuffer toy_strict (get env "iv") = inr iv
    /\ Z.of_nat (length iv) = 16
    /\ get env "salt" = SStr (toBase64 toy_strict salt)
    /\ newBuffer toy_strict (get env "salt") = inr salt
    /\ Z.of_nat (length salt) = 256 / 8
    /\ get env "value" = SStr v /\ v <> ""
    /\ fst (decrypt toy_strict (Obj env) (SStr "correct-horse") w') = inr "hello world".
Proof. apply (end_to_end toy_strict 0%nat (toy_ok _)). Defined.

(** ** The legacy key length *)

(** C6: the check of the code is the Legacy Normalizer: it turns 32 into
    256 and leaves every other value as it is.  On the encrypt path, for
    every configured key length, [encrypt] and [encryptAsync] past their
    checks put the configured value through it: the session holds the
    normalized value, the salt is asked with it and, the two draws
    succeeding, so is the derivation; an envelope [encrypt] returns records
    it.  On the decrypt path, for every envelope that passes the checks,
    [decrypt] and [decryptAsync] ask the derivation with the normalized
    value of the key length resolved from the envelope or, the envelope
    having none, from the configuration.  On a platform that works,
    [encrypt] with configured key length 32 does return an envelope, whose
    key length is 256, and the derivation asked with the normalized 32
    gives a key of 256 bits. *)
Theorem legacy_key_length (P : Platform) :
  (forall kl, legacy kl = normalized kl)
  /\ legacy (SNum 32) = SNum 256
  /\ (forall kl, kl <> SNum 32 -> legacy kl = kl)
  /\ (forall (w : World P) input secret cb,
        let sec := js_or secret (defaultSecret (this w)) in
        let kl := normalized (keyLength (this w)) in
        let its := iterations (this w) in
        truthy input = true -> truthy sec = true ->
        (exists r g evs,
           encrypt P input secret w =
             (r, mkWorld (setKeyLength kl (this w)) g
                   (log w ++ EvRandomBytes (div8 P kl) :: evs) (queue w))
           /\ (forall salt g1 iv g2,
                 randomBytes P (div8 P kl) (rng w) = (inr salt, g1) ->
                 randomBytes P (Finite 16) g1 = (inr iv, g2) ->
                 exists evs', evs = EvRandomBytes (Finite 16)
                                    :: EvPbkdf2 sec salt its (div8 P kl) :: evs')
           /\ (forall env, r = inr env -> keyLength (this w) <> SUndefined ->
                 get env "keyLength" = kl))
        /\ (exists r g evs q,
              encryptAsync P input secret cb w =
                (r, mkWorld (setKeyLength kl (this w)) g
                      (log w ++ EvRandomBytes (div8 P kl) :: evs) q)
              /\ (forall salt g1 iv g2,
                    randomBytes P (div8 P kl) (rng w) = (inr salt, g1) ->
                    randomBytes P (Finite 16) g1 = (inr iv, g2) ->
                    evs = [EvRandomBytes (Finite 16);
                           EvPbkdf2 sec salt its (div8 P kl)])))
  /\ (forall (w : World P) input secret cb o salt iv,
        let sec := js_or secret (defaultSecret (this w)) in
        let resolved := if truthy (get o "keyLength") then get o "keyLength"
                        else keyLength (this w) in
        let its := js_or (get o "iterations") (iterations (this w)) in
        truthy_value input = true -> truthy sec = true ->
        resolve P input = Some (Obj o) ->
        truthy (get o "iv") = true -> truthy (get o "salt") = true ->
        truthy (get o "value") = true ->
        newBuffer P (get o "salt") = inr salt ->
        newBuffer P (get o "iv") = inr iv ->
        (exists r evs,
           decrypt P input secret w =
             (r, mkWorld (this w) (rng w)
                   (log w ++ EvPbkdf2 sec salt its (div8 P (normalized resolved)) :: evs)
                   (queue w)))
        /\ (exists r q,
             decryptAsync P input secret cb w =
               (r, mkWorld (this w) (rng w)
                     (log w ++ [EvPbkdf2 sec salt its (div8 P (normalized resolved))]) q)))
  /\ (PlatformOK P ->
      (forall (w : World P) (p s : string) (it : Z),
         keyLength (this w) = SNum 32 -> iterations (this w) = SNum it -> 0 < it ->
         p <> "" -> s <> "" ->
         exists env w', encrypt P (SStr p) (SStr s) w = (inr env, w')
                        /\ get env "keyLength" = SNum 256)
      /\ (forall (s : string) (salt : bytes) (it : Z),
            s <> "" -> 0 < it ->
            exists key, pbkdf2 P (SStr s) salt (SNum it) (div8 P (normalized (SNum 32)))
                        = KdfKey key
                        /\ (8 * Z.of_nat (length key) = 256)%Z)).
Proof.
  split; [exact legacy_normalized|].
  split; [reflexivity|]. split; [exact legacy_other|].
  split; [|split].
  - intros w input secret cb sec kl its Hin Hsec. subst sec kl its.
    rewrite <- legacy_normalized. split.
    + destruct (encrypt_asks P w input secret Hin Hsec) as (r & g & evs & Hrun & Hevs).
      exists r, g, evs. split; [exact Hrun|]. split; [exact Hevs|].
      intros env -> Hkl. apply encrypt_inv in Hrun
        as (salt & iv & key & g1 & g2 & c & c' & s1 & s2 & Henc).
      destruct Henc as (_ & _ & _ & _ & _ & _ & _ & _ & -> & _).
      apply merged_envelope_get_keyLength.
      rewrite legacy_normalized. unfold normalized.
      by destruct (decide (keyLength (this w) = SNum 32)).
    + exact (encryptAsync_asks P w input secret cb Hin Hsec).
  - intros w input secret cb o salt iv sec resolved its
      Hin Hsec Hres Hiv Hsalt Hval Hbs Hbi.
    subst sec resolved its. rewrite <- legacy_normalized.
    pose proof (decrypt_checked P w input secret o salt iv
                  Hin Hsec Hres Hiv Hsalt Hval Hbs Hbi) as (r & evs & Hdec & _).
    pose proof (decryptAsync_checked P w input secret cb o salt iv
                  Hin Hsec Hres Hiv Hsalt Hval Hbs Hbi) as (r' & q & Hdec').
    split; [by exists r, evs|by exists r', q].
  - intros HP. split.
    + intros w p s it Hkl Hits Hit Hp Hs.
      destruct (encrypt_decrypt P HP w p s (SStr s) it) as
        (env & w' & salt & iv & key & v & Henc & Henv & _); try done.
      * by rewrite Hkl.
      * unfold js_or. by rewrite truthy_str.
      * exists env, w'. split; [exact Henc|]. rewrite Henv.
        by apply merged_envelope_get_keyLength.
    + intros s salt it Hs Hit.
      destruct (pbkdf2_ok P HP s salt it 32 Hs Hit ltac:(lia)) as (key & Hkey & Lkey).
      exists key. split; [exact Hkey|]. rewrite Lkey. reflexivity.
Qed.

(** ** The context *)

(** C8, as claimed, fails: [_.defaults] reads [result[key]] through the
    prototype chain, so a context key named as a property every object
    inherits is not copied.  In the default session with the context
    [{constructor: "alice"}], [constructor] is not a core field, and the
    envelope [encrypt] returns has no such field of its own. *)
Lemma context_key_not_copied :
  let ctx : object := <["constructor" := SStr "alice"]> ∅ in
  let w := toy_world toy_strict (setContext ctx (new_Krypt None)) 0%nat in
  ("constructor" ∉ core_fields)
  /\ context (this w) !! "constructor" = Some (SStr "alice")
  /\ match encrypt toy_strict (SStr "text") (SStr "secret") w with
     | (inr env, _) => env !! "constructor" = None
     | (inl _, _) => False
     end.
Proof.
  split; [|split].
  - unfold core_fields. intros H.
    repeat (apply elem_of_cons in H as [H|H]; [discriminate H|]).
    by apply elem_of_nil in H.
  - reflexivity.
  - vm_compute. reflexivity.
Qed.

(** C8, amended: whatever the context, an envelope [encrypt] returns holds
    under each of the seven core keys what the pipeline computed (the two
    algorithm names, the key length after the legacy check, the iterations,
    the base64 of the IV and of the salt that were drawn, the ciphertext);
    under every other key that is not the name of an inherited property it
    holds what the context holds under it, and it has no field of its own
    under the name of an inherited property.  The session is one whose key
    length and iterations are set.  With the context
    [{keyLength: 999, owner: "alice"}] in the default session, the envelope
    has key length 256, the length the key was derived with, and owner
    ["alice"]. *)
Theorem context_keeps_core_fields (P : Platform) :
  (forall (w w' : World P) input secret env,
     keyLength (this w) <> SUndefined ->
     iterations (this w) <> SUndefined ->
     encrypt P input secret w = (inr env, w') ->
     let sec := js_or secret (defaultSecret (this w)) in
     let kl := legacy (keyLength (this w)) in
     let its := iterations (this w) in
     exists salt iv key g1 g2 c c' s1 s2,
       randomBytes P (div8 P kl) (rng w) = (inr salt, g1)
       /\ randomBytes P (Finite 16) g1 = (inr iv, g2)
       /\ pbkdf2 P sec salt its (div8 P kl) = KdfKey key
       /\ createCipheriv P CIPHER key iv = inr c
       /\ cipher_update P c input = inr (s1, c')
       /\ cipher_final P c' = inr s2
       /\ get env "cipher" = SStr CIPHER
       /\ get env "keyDerivation" = SStr KEY_DERIVATION
       /\ get env "keyLength" = kl
       /\ get env "iterations" = its
       /\ get env "iv" = SStr (toBase64 P iv)
       /\ get env "salt" = SStr (toBase64 P salt)
       /\ get env "value" = SStr (s1 ++ s2)%string
       /\ (forall k, k ∉ core_fields -> inherited k = false ->
             env !! k = context (this w) !! k)
       /\ (forall k, k ∉ core_fields -> inherited k = true -> env !! k = None))
  /\ (PlatformOK P ->
      forall (g : Rng P) (p s : string), p <> "" -> s <> "" ->
        let ctx : object := <["keyLength" := SNum 999]> (<["owner" := SStr "alice"]> ∅) in
        let w := mkWorld (setContext ctx (new_Krypt None)) g [] [] in
        exists env w' salt iv key,
          encrypt P (SStr p) (SStr s) w = (inr env, w')
          /\ get env "keyLength" = SNum 256
          /\ get env "owner" = SStr "alice"
          /\ log w' = [EvRandomBytes (Finite 32); EvRandomBytes (Finite 16);
                       EvPbkdf2 (SStr s) salt (SNum 64000) (Finite 32);
                       EvCreateCipheriv key iv]
          /\ (8 * Z.of_nat (length key) = 256)%Z).
Proof.
  split.
  - intros w w' input secret env Hkl Hits Henc sec kl its.
    apply encrypt_inv in Henc
      as (salt & iv & key & g1 & g2 & c & c' & s1 & s2 & Henc).
    destruct Henc as (_ & _ & Hsalt & Hiv & Hkey & Hc & Hu & Hf & -> & _).
    assert (Hkl' : kl <> SUndefined).
    { subst kl. destruct (keyLength (this w)) as [| | |n|]; try done.
      cbn. by destruct (Z.eqb n 32). }
    destruct (merged_envelope_get P kl its iv salt (s1 ++ s2)%string
                (context (this w)) Hkl' Hits)
      as (H1 & H2 & H3 & H4 & H5 & H6 & H7).
    exists salt, iv, key, g1, g2, c, c', s1, s2.
    repeat (split; [assumption|]).
    pose proof (proj2 (merged_envelope_lookup P kl its iv salt (s1 ++ s2)%string
                         (context (this w)) Hkl' Hits)) as Hrest.
    split; intros k Hk Hi; specialize (Hrest k Hk); rewrite Hi in Hrest;
      exact Hrest.
  - intros HP g p s Hp Hs ctx w.
    assert (Hkl : legacy (keyLength (this w)) = SNum 256) by reflexivity.
    assert (Hits : iterations (this w) = SNum 64000) by reflexivity.
    assert (Hctx : context (this w) = ctx) by reflexivity.
    assert (Hlog : log w = []) by reflexivity.
    assert (Hsec : js_or (SStr s) (defaultSecret (this w)) = SStr s).
    { unfold js_or. by rewrite truthy_str. }
    clearbody w.
    destruct (encrypt_decrypt P HP w p s (SStr s) 64000 Hkl Hits ltac:(lia) Hsec Hp Hs)
      as (env & w' & salt & iv & key & v & Henc & Henv & _ & _ & _ & Lkey & Hw' & _).
    exists env, w', salt, iv, key. split; [exact Henc|].
    destruct (merged_envelope_get P (SNum 256) (SNum 64000) iv salt v
                (context (this w)) ltac:(done) ltac:(done))
      as (_ & _ & Hklv & _).
    rewrite <- Henv in Hklv. split; [exact Hklv|].
    split.
    + unfold get. rewrite Henv.
      rewrite (proj2 (merged_envelope_lookup P (SNum 256) (SNum 64000) iv salt v
                        (context (this w)) ltac:(done) ltac:(done))).
      * rewrite Hctx. subst ctx. by simplify_map_eq.
      * unfold core_fields. intros H.
        repeat (apply elem_of_cons in H as [H|H]; [discriminate H|]).
        by apply elem_of_nil in H.
    + split; [by rewrite Hw', Hlog|]. by rewrite Lkey.
Qed.

(** ** The parameters of the derivation on decrypt *)

(** C9, as stated, fails: an envelope whose [keyLength] and [iterations]
    are present and 0 is decrypted with the key length and the iterations of
    the session, not with its own. *)
Lemma decrypt_passes_over_zero :
  let o : object :=
    <["keyLength" := SNum 0]> (<["iterations" := SNum 0]>
    (<["iv" := SStr "0123456789abcdef"]> (<["salt" := SStr "salt"]>
    (<["value" := SStr "value"]> ∅)))) in
  let w := toy_world toy_strict (new_Krypt None) 0%nat in
  o !! "keyLength" = Some (SNum 0)
  /\ o !! "iterations" = Some (SNum 0)
  /\ head (log (snd (decrypt toy_strict (Obj o) (SStr "secret") w)))
     = Some (EvPbkdf2 (SStr "secret") (list_byte_of_string "salt")
               (SNum 64000) (Finite 32)).
Proof. repeat split; vm_compute; reflexivity. Qed.

(** C9, amended: on an envelope that passes the checks and decodes,
    [decrypt] and [decryptAsync] derive the key with the envelope's
    [keyLength] and [iterations] where these are truthy (present and not 0),
    and with the session's otherwise; the legacy check is made on the key
    length so chosen, be it the envelope's or the session's. *)
Theorem decrypt_parameters (P : Platform) (w : World P) (input : value)
    (secret : scalar) (cb : callback) (o : object) (salt iv : bytes) :
  let sec := js_or secret (defaultSecret (this w)) in
  truthy_value input = true ->
  truthy sec = true ->
  resolve P input = Some (Obj o) ->
  truthy (get o "iv") = true ->
  truthy (get o "salt") = true ->
  truthy (get o "value") = true ->
  newBuffer P (get o "salt") = inr salt ->
  newBuffer P (get o "iv") = inr iv ->
  exists kl its,
    kl = (if truthy (get o "keyLength") then get o "keyLength"
          else keyLength (this w))
    /\ its = (if truthy (get o "iterations") then get o "iterations"
              else iterations (this w))
    /\ (exists r evs,
          decrypt P input secret w =
            (r, mkWorld (this w) (rng w)
                  (log w ++ EvPbkdf2 sec salt its (div8 P (legacy kl)) :: evs)
                  (queue w)))
    /\ (exists r q,
          decryptAsync P input secret cb w =
            (r, mkWorld (this w) (rng w)
                  (log w ++ [EvPbkdf2 sec salt its (div8 P (legacy kl))]) q)).
Proof.
  intros sec Hin Hsec Hres Hiv Hsalt Hval Hbs Hbi.
  pose proof (decrypt_checked P w input secret o salt iv
                Hin Hsec Hres Hiv Hsalt Hval Hbs Hbi) as (r & evs & Hdec & _).
  pose proof (decryptAsync_checked P w input secret cb o salt iv
                Hin Hsec Hres Hiv Hsalt Hval Hbs Hbi) as (r' & q & Hdec').
  eexists _, _. split; [reflexivity|]. split; [reflexivity|].
  split; [by exists r, evs|by exists r', q].
Qed.

(** ** The completion callback *)

Lemma callbacks_app (l l' : list event) :
  callbacks (l ++ l') = callbacks l ++ callbacks l'.
Proof. unfold callbacks. apply omap_app. Qed.

Lemma callbacks_one (e : event) :
  callbacks [e] = match e with EvCallback a => [a] | _ => [] end.
Proof. by destruct e. Qed.

Ltac count_callbacks :=
  rewrite ?callbacks_app, ?callbacks_one; cbv beta iota; rewrite ?app_nil_r.

Section Completion.

Context (P : Platform).




End Completion.



(** ** [encryptAsync] and the receiver of the derivation's callback *)



(** C2 does not hold of the code.  In the default session with context
    [{owner: "alice"}], from the same state of the random source, [encrypt]
    returns an envelope with key length 256, 64000 iterations and the
    owner; [encryptAsync] hands its callback an error where the derivation's
    callback has no receiver, and where it has one (an object of the
    platform's) an envelope with the same [iv], [salt] and [value] but with
    [keyLength] and [iterations] undefined and no owner. *)
Theorem encryptAsync_is_not_encrypt :
  let k := setContext (<["owner" := SStr "alice"]> ∅) (new_Krypt None) in
  let sync receiver :=
    fst (encrypt (toy receiver) (SStr "hello world") (SStr "correct-horse")
           (toy_world (toy receiver) k 0%nat)) in
  let async receiver :=
    callbacks (log (snd (run_next (toy receiver) (snd (
      encryptAsync (toy receiver) (SStr "hello world") (SStr "correct-horse") quiet
        (toy_world (toy receiver) k 0%nat)))))) in
  match sync (Prim SUndefined), async (Prim SUndefined), async (Obj ∅) with
  | inr env, [CbErr e], [CbResult (Obj env')] =>
      get env "keyLength" = SNum 256
      /\ get env "iterations" = SNum 64000
      /\ get env "owner" = SStr "alice"
      /\ e = Error "Unable to encrypt value due to: TypeError: Cannot read property 'keyLength' of undefined"
      /\ get env' "iv" = get env "iv"
      /\ get env' "salt" = get env "salt"
      /\ get env' "value" = get env "value"
      /\ get env' "keyLength" = SUndefined
      /\ get env' "iterations" = SUndefined
      /\ get env' "owner" = SUndefined
  | _, _, _ => False
  end.
Proof. vm_compute. repeat split; reflexivity. Qed.

(** ** The theorems at work on the small platform *)

Lemma validation_before_crypto_witness :
  let w := toy_world toy_strict (new_Krypt None) 0%nat in
  let incomplete : object := <["iv" := SStr "x"]> (<["salt" := SStr "y"]> ∅) in
  encrypt toy_strict (SStr "") (SStr "secret") w
    = (inl (Error "You must provide a value to encrypt"), w)
  /\ encrypt toy_strict SNull (SStr "secret") w
     = (inl (Error "You must provide a value to encrypt"), w)
  /\ encrypt toy_strict (SStr "text") SUndefined w
     = (inl (Error "A 'secret' is required to encrypt"), w)
  /\ decrypt toy_strict (Prim (SStr "{not json")) (SStr "secret") w
     = (inl (Error "Unable to parse string input as JSON"), w)
  /\ decrypt toy_strict (Obj incomplete) (SStr "secret") w
     = (inl (Error "Input must be a valid object with 'iv', 'salt', and 'value' properties"), w).
Proof.
  intros w incomplete.
  destruct (validation_before_crypto toy_strict w) as [He Hd].
  split; [|split; [|split; [|split]]].
  - apply He. apply enc_no_input. reflexivity.
  - apply He. apply enc_no_input. reflexivity.
  - apply He. apply enc_no_secret; reflexivity.
  - apply Hd. apply dec_bad_json; reflexivity.
  - apply Hd. apply (dec_no_field _ _ _ _ incomplete); vm_compute; reflexivity.
Defined.

Lemma null_text_not_validated_witness :
  let w := toy_world toy_strict (new_Krypt None) 0%nat in
  exists e,
    get_prop (Prim SNull) "iv" = inl e
    /\ decrypt toy_strict (Prim (SStr "null")) (SStr "secret") w = (inl e, w)
    /\ name e = "TypeError"
    /\ ~ ValidationError e.
Proof.
  intros w.
  apply (null_text_not_validated toy_strict w (SStr "null") (SStr "secret"));
    reflexivity.
Defined.

Lemma legacy_key_length_witness :
  let w := toy_world toy_strict (setKeyLength (SNum 32) (new_Krypt None)) 0%nat in
  let bare : object :=
    <["iv" := SStr "0123456789abcdef"]>
    (<["salt" := SStr "salt"]> (<["value" := SStr "value"]> ∅)) in
  let stored : object := <["keyLength" := SNum 64]> bare in
  (exists env w', encrypt toy_strict (SStr "text") (SStr "secret") w = (inr env, w')
                  /\ get env "keyLength" = SNum 256
                  /\ keyLength (this w') = SNum 256)
  /\ (exists r evs,
        decrypt toy_strict (Obj bare) (SStr "secret") w =
          (r, mkWorld (this w) (rng w)
                (log w ++ EvPbkdf2 (SStr "secret") (list_byte_of_string "salt")
                            (SNum 64000) (Finite 32) :: evs) (queue w)))
  /\ (exists r evs,
        decrypt toy_strict (Obj stored) (SStr "secret") w =
          (r, mkWorld (this w) (rng w)
                (log w ++ EvPbkdf2 (SStr "secret") (list_byte_of_string "salt")
                            (SNum 64000) (Finite 8) :: evs) (queue w)))
  /\ (exists key,
        pbkdf2 toy_strict (SStr "secret") (list_byte_of_string "salt")
          (SNum 64000) (Finite 32) = KdfKey key
        /\ (8 * Z.of_nat (length key) = 256)%Z).
Proof.
  intros w bare stored.
  destruct (legacy_key_length toy_strict)
    as (_ & _ & Hother & Henc & Hdec & Hworks).
  pose proof (Hother (SNum 128) ltac:(discriminate)) as _.
  destruct (Hworks (toy_ok _)) as [Hret Hkey].
  split; [|split; [|split]].
  - destruct (Hret w "text" "secret" 64000) as (env & w' & Hrun & Hkl);
      [reflexivity|reflexivity|lia|discriminate|discriminate|].
    exists env, w'. split; [exact Hrun|]. split; [exact Hkl|].
    destruct (Henc w (SStr "text") (SStr "secret") quiet
                ltac:(reflexivity) ltac:(reflexivity))
      as [(r & g & evs & Hrun' & _) _].
    rewrite Hrun in Hrun'. injection Hrun' as _ ->. reflexivity.
  - destruct (Hdec w (Obj bare) (SStr "secret") quiet bare
                (list_byte_of_string "salt") (list_byte_of_string "0123456789abcdef"))
      as (H1 & _); try (vm_compute; reflexivity).
    exact H1.
  - destruct (Hdec w (Obj stored) (SStr "secret") quiet stored
                (list_byte_of_string "salt") (list_byte_of_string "0123456789abcdef"))
      as (H1 & _); try (vm_compute; reflexivity).
    exact H1.
  - apply (Hkey "secret" (list_byte_of_string "salt") 64000); [discriminate|lia].
Defined.

Lemma context_keeps_core_fields_witness :
  let ctx : object := <["keyLength" := SNum 999]> (<["owner" := SStr "alice"]> ∅) in
  let w := mkWorld (P:=toy_strict) (setContext ctx (new_Krypt None)) 0%nat [] [] in
  let ctx2 : object := <["toString" := SStr "x"]> (<["owner" := SStr "bob"]> ∅) in
  let w2 := mkWorld (P:=toy_strict) (setContext ctx2 (new_Krypt None)) 0%nat [] [] in
  (exists env w',
     encrypt toy_strict (SStr "text") (SStr "secret") w = (inr env, w')
     /\ get env "keyLength" = SNum 256
     /\ get env "owner" = SStr "alice"
     /\ get env "cipher" = SStr CIPHER
     /\ get env "iterations" = SNum 64000)
  /\ (exists env w',
        encrypt toy_strict (SStr "text") (SStr "secret") w2 = (inr env, w')
        /\ env !! "owner" = Some (SStr "bob")
        /\ env !! "toString" = None).
Proof.
  intros ctx w ctx2 w2.
  destruct (context_keeps_core_fields toy_strict) as [_ Hexample].
  split.
  - destruct (Hexample (toy_ok _) 0%nat "text" "secret")
      as (env & w' & salt & iv & key & Henc & Hkl & Howner & _);
      [discriminate|discriminate|].
    exists env, w'. split; [exact Henc|]. split; [exact Hkl|]. split; [exact Howner|].
    destruct (context_keeps_core_fields toy_strict) as [Hcore _].
    destruct (Hcore w w' (SStr "text") (SStr "secret") env)
      as (salt' & iv' & key' & g1 & g2 & c & c' & s1 & s2 & H);
      [discriminate|discriminate|exact Henc|].
    destruct H as (_ & _ & _ & _ & _ & _ & Hc & _ & _ & Hit & _).
    split; [exact Hc|exact Hit].
  - assert (Hctx : context (this w2) = ctx2) by reflexivity.
    assert (Hnot : forall k, k = "owner" \/ k = "toString" -> k ∉ core_fields).
    { intros k [->| ->]; unfold core_fields; intros H;
        repeat (apply elem_of_cons in H as [H|H]; [discriminate H|]);
        by apply elem_of_nil in H. }
    destruct (encrypt_decrypt toy_strict (toy_ok _) w2 "text" "secret"
                (SStr "secret") 64000)
      as (env & w' & salt & iv & key & v & Henc & _);
      [reflexivity|reflexivity|lia|reflexivity|discriminate|discriminate|].
    destruct (context_keeps_core_fields toy_strict) as [Hcore _].
    destruct (Hcore w2 w' (SStr "text") (SStr "secret") env)
      as (salt' & iv' & key' & g1 & g2 & c & c' & s1 & s2 & H);
      [discriminate|discriminate|exact Henc|].
    destruct H as (_ & _ & _ & _ & _ & _ & _ & _ & _ & _ & _ & _ & _ & Hcopied & Hleft).
    exists env, w'. split; [exact Henc|]. split.
    + rewrite (Hcopied "owner"); [by rewrite Hctx|apply Hnot; by left|reflexivity].
    + apply Hleft; [apply Hnot; by right|reflexivity].
Defined.

Lemma decrypt_parameters_witness :
  let o : object :=
    <["keyLength" := SNum 0]> (<["iterations" := SNum 1000]>
    (<["iv" := SStr "0123456789abcdef"]> (<["salt" := SStr "salt"]>
    (<["value" := SStr "value"]> ∅)))) in
  let w := toy_world toy_strict (setKeyLength (SNum 32) (new_Krypt None)) 0%nat in
  exists kl its,
    kl = SNum 32 /\ its = SNum 1000
    /\ (exists r evs,
          decrypt toy_strict (Obj o) (SStr "secret") w =
            (r, mkWorld (this w) (rng w)
                  (log w ++ EvPbkdf2 (SStr "secret") (list_byte_of_string "salt") its
                              (div8 toy_strict (legacy kl)) :: evs)
                  (queue w)))
    /\ (exists r q,
          decryptAsync toy_strict (Obj o) (SStr "secret") quiet w =
            (r, mkWorld (this w) (rng w)
                  (log w ++ [EvPbkdf2 (SStr "secret") (list_byte_of_string "salt") its
                               (div8 toy_strict (legacy kl))]) q)).
Proof.
  intros o w.
  apply (decrypt_parameters toy_strict w (Obj o) (SStr "secret") quiet o
           (list_byte_of_string "salt") (list_byte_of_string "0123456789abcdef"));
    vm_compute; reflexivity.
Defined.



(** * Further properties of the module *)

(** ** Errors *)

Section Errors.

Context (P : Platform).

(** An error [encrypt] throws is a validation error, or the error the
    random source threw, as it is, or an ["Unable to encrypt value"] error
    made of what the derivation or the cipher threw. *)
Theorem encrypt_errors (w w' : World P) (input secret : scalar) (e : exn) :
  encrypt P input secret w = (inl e, w') ->
  ValidationError e
  \/ (exists n g, randomBytes P n g = (inl e, rng w'))
  \/ (exists cause,
        e = Error ("Unable to encrypt value due to: " ++ exn_to_string cause)%string
        /\ ((exists s salt i n, pbkdf2 P s salt i n = KdfThrow cause
                                \/ pbkdf2 P s salt i n = KdfFail cause)
            \/ (exists key iv, createCipheriv P CIPHER key iv = inl cause)
            \/ (exists c, cipher_update P c input = inl cause)
            \/ (exists c, cipher_final P c = inl cause))).
Proof.
  unfold encrypt. crack; intros [= <- <-].
  - left. constructor.
  - left. constructor.
  - right. left. eauto.
  - right. left. eauto.
  - right. right. eexists. split; [reflexivity|]. left. eauto 8.
  - right. right. eexists. split; [reflexivity|]. left. eauto 8.
  - right. right. eexists. split; [reflexivity|]. right. left. eauto.
  - right. right. eexists. split; [reflexivity|]. right. right. left. eauto.
  - right. right. eexists. split; [reflexivity|]. right. right. right. eauto.
Qed.

(** An error [decrypt] throws is a validation error, or the [TypeError] of
    reading a property of a parsed [null], or the error the base64 decoding
    of salt or IV threw, as it is, or an ["Unable to decrypt value"] error
    made of what the derivation or the cipher threw. *)
Theorem decrypt_errors (w w' : World P) (input : value) (secret : scalar) (e : exn) :
  decrypt P input secret w = (inl e, w') ->
  ValidationError e
  \/ (exists v k, resolve P input = Some v /\ get_prop v k = inl e)
  \/ (exists x, newBuffer P x = inl e)
  \/ (exists cause,
        e = Error ("Unable to decrypt value due to: " ++ exn_to_string cause)%string
        /\ ((exists s salt i n, pbkdf2 P s salt i n = KdfThrow cause
                                \/ pbkdf2 P s salt i n = KdfFail cause)
            \/ (exists key iv, createDecipheriv P CIPHER key iv = inl cause)
            \/ (exists d x, decipher_update P d x = inl cause)
            \/ (exists d, decipher_final P d = inl cause))).
Proof.
  unfold decrypt. crack; intros [= <- <-];
    try (left; constructor);
    try (right; left; eauto; fail);
    try (right; right; left; eauto; fail);
    right; right; right; eexists; (split; [reflexivity|]);
    first [ left; eauto 8; fail
          | right; left; eauto; fail
          | right; right; left; eauto; fail
          | right; right; right; eauto ].
Qed.

End Errors.

(** ** What decrypt reads *)

Section Reading.

Context (P : Platform).

(** Two envelopes that agree on [iv], [salt], [value], [keyLength] and
    [iterations] are decrypted alike, by [decrypt] and by [decryptAsync]:
    the [cipher] and [keyDerivation] names an envelope carries, and any
    other field, play no part. *)
Theorem decrypt_reads_five_fields (w : World P) (o o' : object)
    (secret : scalar) (cb : callback) :
  (forall k, k ∈ read_fields -> get o k = get o' k) ->
  decrypt P (Obj o) secret w = decrypt P (Obj o') secret w
  /\ decryptAsync P (Obj o) secret cb w = decryptAsync P (Obj o') secret cb w.
Proof.
  intros H.
  assert (Hiv : get o "iv" = get o' "iv") by (apply H; unfold read_fields; set_solver).
  assert (Hsalt : get o "salt" = get o' "salt") by (apply H; unfold read_fields; set_solver).
  assert (Hval : get o "value" = get o' "value") by (apply H; unfold read_fields; set_solver).
  assert (Hkl : get o "keyLength" = get o' "keyLength")
    by (apply H; unfold read_fields; set_solver).
  assert (Hits : get o "iterations" = get o' "iterations")
    by (apply H; unfold read_fields; set_solver).
  unfold decrypt, decryptAsync. cbn [truthy_value resolve get_prop negb].
  by rewrite Hiv, Hsalt, Hval, Hkl, Hits.
Qed.

(** A text that parses to an object is decrypted as that object is. *)
Theorem decrypt_text (w : World P) (s : scalar) (o : object)
    (secret : scalar) (cb : callback) :
  truthy s = true ->
  JSON_parse P s = Some (Obj o) ->
  decrypt P (Prim s) secret w = decrypt P (Obj o) secret w
  /\ decryptAsync P (Prim s) secret cb w = decryptAsync P (Obj o) secret cb w.
Proof.
  intros Hs Hparse. unfold decrypt, decryptAsync.
  cbn [truthy_value resolve]. by rewrite Hs, Hparse.
Qed.

(** A text that parses to [null] passes the checks made before the parse
    and then makes [decrypt] throw the [TypeError] of reading [iv] on
    [null]; [decryptAsync] throws it too, and does not call its callback.
    Nothing else has happened. *)
Theorem decrypt_parsed_null (w : World P) (s secret : scalar) (cb : callback) :
  truthy s = true ->
  truthy (js_or secret (defaultSecret (this w))) = true ->
  JSON_parse P s = Some (Prim SNull) ->
  let e := JsError "TypeError" "Cannot read property 'iv' of null" in
  decrypt P (Prim s) secret w = (inl e, w)
  /\ decryptAsync P (Prim s) secret cb w = (inl e, w).
Proof.
  intros Hs Hsec Hparse e. unfold decrypt, decryptAsync.
  cbn [truthy_value resolve]. run. cbn [get_prop]. run. by split.
Qed.

End Reading.

(** ** Errors that are not wrapped, errors that are not called back *)

Section Unwrapped.

Context (P : Platform).

(** When the random source refuses to give the salt, [encrypt] throws its
    error as it is, not as an ["Unable to encrypt value"] error, and
    [encryptAsync] throws it too, instead of calling its callback.  No
    derivation was asked for; the legacy check has been made. *)
Theorem random_failure_is_thrown (w : World P) (input secret : scalar)
    (cb : callback) (e : exn) (g : Rng P) :
  let kl := legacy (keyLength (this w)) in
  truthy input = true ->
  truthy (js_or secret (defaultSecret (this w))) = true ->
  randomBytes P (div8 P kl) (rng w) = (inl e, g) ->
  let w' := mkWorld (setKeyLength kl (this w)) g
              (log w ++ [EvRandomBytes (div8 P kl)]) (queue w) in
  encrypt P input secret w = (inl e, w')
  /\ encryptAsync P input secret cb w = (inl e, w').
Proof.
  intros kl Hin Hsec Hrand w'. subst kl w'.
  unfold encrypt, encryptAsync. run. by split.
Qed.

(** Where the two styles part on an error: arguments the derivation
    rejects.  [encrypt] throws an ["Unable to encrypt value"] error made of
    the rejection; [encryptAsync] throws the rejection itself, starts no
    derivation and never calls its callback.  [decrypt] and [decryptAsync]
    part the same way. *)
Theorem rejected_derivation (w : World P) :
  (forall input secret cb salt iv g1 g2 cause,
     let sec := js_or secret (defaultSecret (this w)) in
     let kl := legacy (keyLength (this w)) in
     truthy input = true -> truthy sec = true ->
     randomBytes P (div8 P kl) (rng w) = (inr salt, g1) ->
     randomBytes P (Finite 16) g1 = (inr iv, g2) ->
     pbkdf2 P sec salt (iterations (this w)) (div8 P kl) = KdfThrow cause ->
     exists w',
       encrypt P input secret w =
         (inl (Error ("Unable to encrypt value due to: " ++ exn_to_string cause)%string), w')
       /\ encryptAsync P input secret cb w = (inl cause, w')
       /\ callbacks (log w') = callbacks (log w)
       /\ queue w' = queue w)
  /\ (forall input secret cb o salt iv cause,
        let sec := js_or secret (defaultSecret (this w)) in
        let kl := legacy (js_or (get o "keyLength") (keyLength (this w))) in
        let its := js_or (get o "iterations") (iterations (this w)) in
        truthy_value input = true -> truthy sec = true ->
        resolve P input = Some (Obj o) ->
        truthy (get o "iv") = true -> truthy (get o "salt") = true ->
        truthy (get o "value") = true ->
        newBuffer P (get o "salt") = inr salt ->
        newBuffer P (get o "iv") = inr iv ->
        pbkdf2 P sec salt its (div8 P kl) = KdfThrow cause ->
        exists w',
          decrypt P input secret w =
            (inl (Error ("Unable to decrypt value due to: " ++ exn_to_string cause)%string), w')
          /\ decryptAsync P input secret cb w = (inl cause, w')
          /\ callbacks (log w') = callbacks (log w)
          /\ queue w' = queue w).
Proof.
  split.
  - intros input secret cb salt iv g1 g2 cause sec kl Hin Hsec Hsalt Hiv Hkdf.
    subst sec kl. eexists. unfold encrypt, encryptAsync. run.
    split; [reflexivity|]. split; [reflexivity|]. cbn [log queue].
    split; [by count_callbacks|reflexivity].
  - intros input secret cb o salt iv cause sec kl its
      Hin Hsec Hres Hiv Hsalt Hval Hbs Hbi Hkdf.
    subst sec kl its. eexists. unfold decrypt, decryptAsync.
    rewrite Hin, Hres. cbn [get_prop]. run.
    split; [reflexivity|]. split; [reflexivity|]. cbn [log queue].
    split; [by count_callbacks|reflexivity].
Qed.

End Unwrapped.

(** ** The two styles of decrypt *)

Section Styles.

Context (P : Platform).

Lemma decrypt_then_decryptAsync (w w1 : World P) (input : value) (secret : scalar)
    (cb : callback) (p : string) :
  (forall a, cb a = None) ->
  queue w = [] ->
  decrypt P input secret w = (inr p, w1) ->
  exists w2 w3,
    decryptAsync P input secret cb w = (inr tt, w2)
    /\ callbacks (log w2) = callbacks (log w)
    /\ run_next P w2 = (inr tt, w3)
    /\ callbacks (log w3) = callbacks (log w) ++ [CbResult (Prim (SStr p))]
    /\ queue w3 = [].
Proof.
  intros Hcb Hq. unfold decrypt, decryptAsync.
  destruct (truthy_value input); cbn [negb]; [|intros [=]].
  run. destruct (truthy (js_or secret (defaultSecret (this w)))); cbn [negb]; [|intros [=]].
  destruct (resolve P input) as [v|]; [|intros [=]].
  run. destruct (get_prop v "iv") as [?|x_iv]; [intros [=]|].
  destruct (get_prop v "salt") as [?|x_salt]; [intros [=]|].
  destruct (get_prop v "value") as [?|x_value]; [intros [=]|].
  destruct (negb (truthy x_iv) || negb (truthy x_salt) || negb (truthy x_value));
    [intros [=]|].
  destruct (newBuffer P x_salt) as [?|salt]; [intros [=]|].
  destruct (newBuffer P x_iv) as [?|iv]; [intros [=]|].
  destruct (get_prop v "keyLength") as [?|x_kl]; [intros [=]|].
  destruct (get_prop v "iterations") as [?|x_its]; [intros [=]|].
  run.
  destruct (pbkdf2 P _ salt _ _) as [?|?|key] eqn:Hkdf; run; try (intros [=]; fail).
  destruct (createDecipheriv P CIPHER key iv) as [?|d] eqn:Hd; run; try (intros [=]; fail).
  destruct (decipher_update P d x_value) as [?|[t1 d']] eqn:Hu; run; try (intros [=]; fail).
  destruct (decipher_final P d') as [?|t2] eqn:Hf; run; try (intros [=]; fail).
  intros [= <- <-]. clear Hq.
  eexists _, _. split; [reflexivity|]. cbn [log].
  split; [by count_callbacks|].
  unfold run_next. cbn [queue app job_cont run_cont].
  unfold job_result, decryptAsync_done. run.
  rewrite (Hcb (CbResult (Prim (SStr (t1 ++ t2)%string)))).
  split; [reflexivity|]. cbn [log queue].
  split; [by count_callbacks|reflexivity].
Qed.

(** What [decrypt] returns, [decryptAsync] hands to its callback: when
    [decrypt] returns a text, [decryptAsync] with a callback that returns
    starts one derivation without calling the callback, and the end of that
    derivation calls the callback once, with that text. *)
Theorem decryptAsync_delivers (w w1 : World P) (input : value) (secret : scalar)
    (cb : callback) (p : string) :
  (forall a, cb a = None) ->
  queue w = [] ->
  decrypt P input secret w = (inr p, w1) ->
  exists w2 w3,
    decryptAsync P input secret cb w = (inr tt, w2)
    /\ callbacks (log w2) = callbacks (log w)
    /\ run_next P w2 = (inr tt, w3)
    /\ callbacks (log w3) = callbacks (log w) ++ [CbResult (Prim (SStr p))]
    /\ queue w3 = [].
Proof. apply decrypt_then_decryptAsync. Qed.

End Styles.

(** ** A callback that throws *)

Section Throwing.

Context (P : Platform).

(** The completion callback is called inside the [try] block.  When the
    text has been deciphered and the callback throws on being handed it,
    the callback is called a second time, with an ["Unable to decrypt
    value"] error made of its own exception; what it does then is what the
    end of the derivation does. *)
Theorem decrypt_callback_called_again (w : World P) (input_value : scalar)
    (key iv : bytes) (cb : callback) (d d' : Decipher P) (t1 t2 : string)
    (e : exn) :
  createDecipheriv P CIPHER key iv = inr d ->
  decipher_update P d input_value = inr (t1, d') ->
  decipher_final P d' = inr t2 ->
  cb (CbResult (Prim (SStr (t1 ++ t2)%string))) = Some e ->
  let again :=
    CbErr (Error ("Unable to decrypt value due to: " ++ exn_to_string e)%string) in
  exists w',
    decryptAsync_done P input_value iv cb (inr key) w =
      (match cb again with Some e' => inl e' | None => inr tt end, w')
    /\ callbacks (log w') =
         callbacks (log w) ++ [CbResult (Prim (SStr (t1 ++ t2)%string)); again].
Proof.
  intros Hd Hu Hf Hcb again. subst again.
  unfold decryptAsync_done. run.
  destruct (cb (CbErr _)); eexists; (split; [reflexivity|]);
    cbn [log]; count_callbacks; by rewrite <- app_assoc.
Qed.

(** The same of [encryptAsync], where the platform calls the derivation's
    callback on a value whose properties can be read. *)
Theorem encrypt_callback_called_again (w : World P) (input : scalar)
    (key iv salt : bytes) (cb : callback) (c c' : Cipher P) (s1 s2 : string)
    (kl its ctx : scalar) (e : exn) :
  createCipheriv P CIPHER key iv = inr c ->
  cipher_update P c input = inr (s1, c') ->
  cipher_final P c' = inr s2 ->
  get_prop (kdf_this P) "keyLength" = inr kl ->
  get_prop (kdf_this P) "iterations" = inr its ->
  get_prop (kdf_this P) "context" = inr ctx ->
  let result := CbResult (Obj (envelope P kl its iv salt (s1 ++ s2)%string)) in
  cb result = Some e ->
  let again :=
    CbErr (Error ("Unable to encrypt value due to: " ++ exn_to_string e)%string) in
  exists w',
    encryptAsync_done P input iv salt cb (inr key) w =
      (match cb again with Some e' => inl e' | None => inr tt end, w')
    /\ callbacks (log w') = callbacks (log w) ++ [result; again].
Proof.
  intros Hc Hu Hf Hkl Hits Hctx result Hcb again. subst result again.
  unfold encryptAsync_done, defaults_scalar. run.
  destruct (cb (CbErr _)); eexists; (split; [reflexivity|]);
    cbn [log]; count_callbacks; by rewrite <- app_assoc.
Qed.

End Throwing.

(** ** The envelope [encryptAsync] hands over *)

Section Handed.

Context (P : Platform).

(** Whatever the platform and the callback, what the end of an
    [encryptAsync] derivation hands to the callback is an error or an
    envelope made of the seven core fields only, whose [keyLength] and
    [iterations] are those of the receiver the platform called with: the
    session's key length, iterations and context are not in it. *)
Theorem encryptAsync_hands_over (w : World P) (input : scalar) (iv salt : bytes)
    (cb : callback) (r : exn + bytes) :
  exists l,
    callbacks (log (snd (encryptAsync_done P input iv salt cb r w))) =
      callbacks (log w) ++ l
    /\ Forall (fun a =>
                match a with
                | CbErr _ => True
                | CbResult v =>
                    exists kl its encryptedValue,
                      get_prop (kdf_this P) "keyLength" = inr kl
                      /\ get_prop (kdf_this P) "iterations" = inr its
                      /\ v = Obj (envelope P kl its iv salt encryptedValue)
                end) l.
Proof.
  unfold encryptAsync_done, defaults_scalar.
  destruct r as [err|key]; crack; cbn [snd log]; count_callbacks; eexists;
    (split; [first [reflexivity | symmetry; apply app_assoc
                   | symmetry; apply app_nil_r]|]);
    repeat (apply Forall_cons; split; [|]); try apply Forall_nil; try exact I;
    by eexists _, _, _.
Qed.

End Handed.

(** ** [encryptAsync], then [decrypt] *)

Section AsyncRoundTrip.

Context (P : Platform) (HP : PlatformOK P).


End AsyncRoundTrip.

(** ** The session's secret *)

Section Secret.

Context (P : Platform).

(** Once [setSecret] has given the session a secret, [encrypt] and
    [decrypt] called without one answer as they do when called with it; and
    a secret given in the call is used whatever the session's is. *)
Theorem default_secret (w : World P) (s : scalar) (input : scalar) (v : value) :
  truthy s = true ->
  let w_s := with_session (setSecret s (this w)) w in
  fst (encrypt P input SUndefined w_s) = fst (encrypt P input s w)
  /\ fst (decrypt P v SUndefined w_s) = fst (decrypt P v s w)
  /\ (forall s', truthy s' = true ->
        fst (encrypt P input s' w_s) = fst (encrypt P input s' w)
        /\ fst (decrypt P v s' w_s) = fst (decrypt P v s' w)).
Proof.
  intros Hs w_s. subst w_s. unfold with_session, setSecret.
  assert (Hor : forall a b, truthy a = true -> js_or a b = a).
  { intros a b H. unfold js_or. by rewrite H. }
  split; [|split; [|intros s' Hs'; split]].
  - unfold encrypt. destruct (truthy input); [|reflexivity]. run.
    cbn [setSecret defaultSecret this]. change (js_or SUndefined s) with s.
    rewrite !(Hor s) by done. crack; reflexivity.
  - unfold decrypt. destruct (truthy_value v); [|reflexivity]. run.
    cbn [setSecret defaultSecret this]. change (js_or SUndefined s) with s.
    rewrite !(Hor s) by done. crack; reflexivity.
  - unfold encrypt. destruct (truthy input); [|reflexivity]. run.
    rewrite !(Hor s') by done. crack; reflexivity.
  - unfold decrypt. destruct (truthy_value v); [|reflexivity]. run.
    rewrite !(Hor s') by done. crack; reflexivity.
Qed.

End Secret.

(** ** A session built with a secret *)


(** ** What the operations leave alone *)

(** [decrypt] and [decryptAsync] draw no random bytes, and the end of a
    derivation draws none; [encrypt] and [decrypt] start no derivation. *)
Theorem decrypt_draws_nothing (P : Platform) (w : World P) :
  (forall input secret,
     rng (snd (decrypt P input secret w)) = rng w
     /\ queue (snd (decrypt P input secret w)) = queue w)
  /\ (forall input secret cb, rng (snd (decryptAsync P input secret cb w)) = rng w)
  /\ rng (snd (run_next P w)) = rng w
  /\ (forall input secret, queue (snd (encrypt P input secret w)) = queue w).
Proof.
  split; [|split; [|split]]; intros.
  - unfold decrypt. crack; by split.
  - unfold decryptAsync. crack; reflexivity.
  - unfold run_next. destruct (queue w) as [|j q]; [reflexivity|].
    unfold run_cont, encryptAsync_done, decryptAsync_done.
    destruct (job_cont j); crack; reflexivity.
  - unfold encrypt. crack; reflexivity.
Qed.

(** ** The fields of an envelope *)

Lemma dom_defaults (dst src : object) :
  dom (defaults dst src) = dom dst ∪ (dom src ∖ list_to_set Object_prototype).
Proof.
  apply set_eq. intros k.
  rewrite elem_of_union, elem_of_difference, !elem_of_dom, lookup_defaults.
  rewrite elem_of_list_to_set.
  unfold resolves_undefined, inherited.
  destruct (dst !! k) as [x|] eqn:Ed.
  - split; [intros _; left; by eexists|intros _].
    destruct (scalar_eqb x SUndefined); [|by eexists].
    destruct (src !! k); by eexists.
  - destruct (bool_decide_reflect (k ∈ Object_prototype)) as [Hin|Hin]; cbn.
    + split; [intros [? ?]; done|]. intros [[? ?]|[_ ?]]; done.
    + destruct (src !! k) as [y|] eqn:Es.
      * split; [intros _; right; split; [by eexists|done]|intros _; by eexists].
      * split; [intros [? ?]; done|]. intros [[? ?]|[[? ?] _]]; done.
Qed.

(** The envelope [encrypt] returns has the seven core fields and those keys
    of the context that are not names of inherited properties, and no
    other. *)
Theorem envelope_fields (P : Platform) (w w' : World P) (input secret : scalar)
    (env : object) :
  encrypt P input secret w = (inr env, w') ->
  dom env = list_to_set core_fields
            ∪ (dom (context (this w)) ∖ list_to_set Object_prototype).
Proof.
  intros Henc.
  apply encrypt_inv in Henc
    as (salt & iv & key & g1 & g2 & c & c' & s1 & s2 & Henc).
  destruct Henc as (_ & _ & _ & _ & _ & _ & _ & _ & -> & _).
  rewrite dom_defaults. f_equal.
Qed.

(** ** [encrypt], then [decryptAsync] *)


(** ** The further theorems at work on the small platform *)

Lemma encrypt_errors_witness :
  let w := toy_world toy_strict (setKeyLength (SNum 128) (new_Krypt None)) 0%nat in
  let e := Error "Unable to encrypt value due to: Error: Invalid key length" in
  let w' := snd (encrypt toy_strict (SStr "text") (SStr "secret") w) in
  ValidationError e
  \/ (exists n g, randomBytes toy_strict n g = (inl e, rng w'))
  \/ (exists cause,
        e = Error ("Unable to encrypt value due to: " ++ exn_to_string cause)%string
        /\ ((exists s salt i n, pbkdf2 toy_strict s salt i n = KdfThrow cause
                                \/ pbkdf2 toy_strict s salt i n = KdfFail cause)
            \/ (exists key iv, createCipheriv toy_strict CIPHER key iv = inl cause)
            \/ (exists c, cipher_update toy_strict c (SStr "text") = inl cause)
            \/ (exists c, cipher_final toy_strict c = inl cause))).
Proof.
  intros w e w'.
  apply (encrypt_errors toy_strict w w' (SStr "text") (SStr "secret") e).
  vm_compute. reflexivity.
Defined.

Lemma decrypt_errors_witness :
  let o : object :=
    <["iv" := SStr "0123456789abcdef"]> (<["salt" := SStr "salt"]>
    (<["value" := SStr "value"]> ∅)) in
  let w := toy_world toy_strict (new_Krypt None) 0%nat in
  let e := Error "Unable to decrypt value due to: Error: bad decrypt" in
  ValidationError e
  \/ (exists v k, resolve toy_strict (Obj o) = Some v /\ get_prop v k = inl e)
  \/ (exists x, newBuffer toy_strict x = inl e)
  \/ (exists cause,
        e = Error ("Unable to decrypt value due to: " ++ exn_to_string cause)%string
        /\ ((exists s salt i n, pbkdf2 toy_strict s salt i n = KdfThrow cause
                                \/ pbkdf2 toy_strict s salt i n = KdfFail cause)
            \/ (exists key iv, createDecipheriv toy_strict CIPHER key iv = inl cause)
            \/ (exists d x, decipher_update toy_strict d x = inl cause)
            \/ (exists d, decipher_final toy_strict d = inl cause))).
Proof.
  intros o w e.
  apply (decrypt_errors toy_strict w (snd (decrypt toy_strict (Obj o) (SStr "secret") w))
           (Obj o) (SStr "secret") e).
  vm_compute. reflexivity.
Defined.

Lemma decrypt_reads_five_fields_witness :
  let o : object :=
    <["iv" := SStr "0123456789abcdef"]> (<["salt" := SStr "salt"]>
    (<["value" := SStr "value"]> ∅)) in
  let o' : object :=
    <["cipher" := SStr "rot13"]> (<["keyDerivation" := SStr "none"]> o) in
  let w := toy_world toy_strict (new_Krypt None) 0%nat in
  decrypt toy_strict (Obj o) (SStr "secret") w
  = decrypt toy_strict (Obj o') (SStr "secret") w
  /\ decryptAsync toy_strict (Obj o) (SStr "secret") quiet w
     = decryptAsync toy_strict (Obj o') (SStr "secret") quiet w.
Proof.
  intros o o' w.
  apply (decrypt_reads_five_fields toy_strict w o o' (SStr "secret") quiet).
  intros k Hk. unfold read_fields in Hk.
  repeat (apply elem_of_cons in Hk as [->|Hk]; [vm_compute; reflexivity|]).
  by apply elem_of_nil in Hk.
Defined.

Lemma decrypt_text_witness :
  let w := toy_world toy_strict (new_Krypt None) 0%nat in
  decrypt toy_strict (Prim (SStr "{}")) (SStr "secret") w
  = decrypt toy_strict (Obj ∅) (SStr "secret") w
  /\ decryptAsync toy_strict (Prim (SStr "{}")) (SStr "secret") quiet w
     = decryptAsync toy_strict (Obj ∅) (SStr "secret") quiet w.
Proof.
  intros w.
  apply (decrypt_text toy_strict w (SStr "{}") ∅ (SStr "secret") quiet);
    reflexivity.
Defined.

Lemma decrypt_parsed_null_witness :
  let w := toy_world toy_strict (new_Krypt None) 0%nat in
  let e := JsError "TypeError" "Cannot read property 'iv' of null" in
  decrypt toy_strict (Prim (SStr "null")) (SStr "secret") w = (inl e, w)
  /\ decryptAsync toy_strict (Prim (SStr "null")) (SStr "secret") quiet w = (inl e, w).
Proof.
  intros w.
  apply (decrypt_parsed_null toy_strict w (SStr "null") (SStr "secret") quiet);
    reflexivity.
Defined.

Lemma random_failure_is_thrown_witness :
  let w := toy_world toy_strict (setKeyLength (SNum 100) (new_Krypt None)) 0%nat in
  let e := JsError "RangeError" "size must be a number >= 0" in
  let w' := mkWorld (P:=toy_strict) (this w) 0%nat
              [EvRandomBytes (div8 toy_strict (SNum 100))] [] in
  encrypt toy_strict (SStr "text") (SStr "secret") w = (inl e, w')
  /\ encryptAsync toy_strict (SStr "text") (SStr "secret") quiet w = (inl e, w').
Proof.
  intros w e w'.
  apply (random_failure_is_thrown toy_strict w (SStr "text") (SStr "secret") quiet e 0%nat);
    vm_compute; reflexivity.
Defined.

Lemma rejected_derivation_witness :
  let w := toy_world toy_strict (setIterations (SNum (-1)) (new_Krypt None)) 0%nat in
  let o : object :=
    <["iterations" := SNum (-1)]> (<["iv" := SStr "0123456789abcdef"]>
    (<["salt" := SStr "salt"]> (<["value" := SStr "value"]> ∅))) in
  let cause := JsError "TypeError" "Bad iterations" in
  (exists w',
     encrypt toy_strict (SStr "text") (SStr "secret") w =
       (inl (Error ("Unable to encrypt value due to: " ++ exn_to_string cause)%string), w')
     /\ encryptAsync toy_strict (SStr "text") (SStr "secret") quiet w = (inl cause, w')
     /\ callbacks (log w') = callbacks (log w)
     /\ queue w' = queue w)
  /\ (exists w',
        decrypt toy_strict (Obj o) (SStr "secret") w =
          (inl (Error ("Unable to decrypt value due to: " ++ exn_to_string cause)%string), w')
        /\ decryptAsync toy_strict (Obj o) (SStr "secret") quiet w = (inl cause, w')
        /\ callbacks (log w') = callbacks (log w)
        /\ queue w' = queue w).
Proof.
  intros w o cause.
  destruct (rejected_derivation toy_strict w) as [Henc Hdec].
  split.
  - apply (Henc (SStr "text") (SStr "secret") quiet
             (repeat (Toy.byte_of_nat 0) 32) (repeat (Toy.byte_of_nat 1) 16)
             1%nat 2%nat cause); vm_compute; reflexivity.
  - apply (Hdec (Obj o) (SStr "secret") quiet o
             (list_byte_of_string "salt") (list_byte_of_string "0123456789abcdef")
             cause); vm_compute; reflexivity.
Defined.

Lemma decryptAsync_delivers_witness :
  let w := toy_world toy_strict (new_Krypt None) 0%nat in
  exists env w1 w2 w3,
    encrypt toy_strict (SStr "text") (SStr "secret") w = (inr env, w1)
    /\ decryptAsync toy_strict (Obj env) (SStr "secret") quiet w1 = (inr tt, w2)
    /\ callbacks (log w2) = callbacks (log w1)
    /\ run_next toy_strict w2 = (inr tt, w3)
    /\ callbacks (log w3) = callbacks (log w1) ++ [CbResult (Prim (SStr "text"))]
    /\ queue w3 = [].
Proof.
  intros w.
  destruct (encrypt_decrypt toy_strict (toy_ok _) w "text" "secret" (SStr "secret") 64000)
    as (env & w1 & salt & iv & key & v & Henc & _ & _ & _ & _ & _ & Hw1 & Hdec);
    [reflexivity|reflexivity|lia|reflexivity|discriminate|discriminate|].
  destruct (decryptAsync_delivers toy_strict w1
              (snd (decrypt toy_strict (Obj env) (SStr "secret") w1))
              (Obj env) (SStr "secret") quiet "text")
    as (w2 & w3 & H);
    [reflexivity|by rewrite Hw1| |].
  - rewrite <- (Hdec w1 (SStr "secret") eq_refl). apply surjective_pairing.
  - exists env, w1, w2, w3. split; [exact Henc|exact H].
Defined.

Lemma decrypt_callback_called_again_witness :
  let key := list_byte_of_string "0123456789abcdef0123456789abcdef" in
  let iv := list_byte_of_string "0123456789abcdef" in
  let x := SStr "#0123456789abcdef0123456789abcdef0123456789abcdeftext" in
  let w := toy_world toy_strict (new_Krypt None) 0%nat in
  let again :=
    CbErr (Error "Unable to decrypt value due to: Error: callback failed") in
  exists w',
    decryptAsync_done toy_strict x iv fussy (inr key) w = (inr tt, w')
    /\ callbacks (log w') = [CbResult (Prim (SStr "text")); again].
Proof.
  intros key iv x w again.
  apply (decrypt_callback_called_again toy_strict w x key iv fussy
           (key, iv, "") (key, iv, "#0123456789abcdef0123456789abcdef0123456789abcdeftext")
           "" "text" (Error "callback failed")); reflexivity.
Defined.

Lemma encrypt_callback_called_again_witness :
  let key := list_byte_of_string "0123456789abcdef0123456789abcdef" in
  let iv := list_byte_of_string "0123456789abcdef" in
  let salt := list_byte_of_string "salt" in
  let s1 := "#0123456789abcdef0123456789abcdef0123456789abcdeftext" in
  let P := toy (Obj ∅) in
  let w := toy_world P (new_Krypt None) 0%nat in
  let result := CbResult (Obj (envelope P SUndefined SUndefined iv salt s1)) in
  let again :=
    CbErr (Error "Unable to encrypt value due to: Error: callback failed") in
  exists w',
    encryptAsync_done P (SStr "text") iv salt fussy (inr key) w = (inr tt, w')
    /\ callbacks (log w') = [result; again].
Proof.
  intros key iv salt s1 P w result again.
  apply (encrypt_callback_called_again P w (SStr "text") key iv salt fussy
           (key, iv) (key, iv) s1 "" SUndefined SUndefined SUndefined
           (Error "callback failed")); reflexivity.
Defined.


Lemma default_secret_witness :
  let w := toy_world toy_strict (new_Krypt None) 0%nat in
  let w_s := with_session (setSecret (SStr "secret") (this w)) w in
  let v := Prim (SStr "{}") in
  fst (encrypt toy_strict (SStr "text") SUndefined w_s)
    = fst (encrypt toy_strict (SStr "text") (SStr "secret") w)
  /\ fst (decrypt toy_strict v SUndefined w_s) = fst (decrypt toy_strict v (SStr "secret") w)
  /\ (forall s', truthy s' = true ->
        fst (encrypt toy_strict (SStr "text") s' w_s)
          = fst (encrypt toy_strict (SStr "text") s' w)
        /\ fst (decrypt toy_strict v s' w_s) = fst (decrypt toy_strict v s' w)).
Proof.
  intros w w_s v.
  apply (default_secret toy_strict w (SStr "secret") (SStr "text") v). reflexivity.
Defined.


Lemma envelope_fields_witness :
  let ctx : object := <["owner" := SStr "alice"]> (<["toString" := SStr "x"]> ∅) in
  let w := mkWorld (P:=toy_strict) (setContext ctx (new_Krypt None)) 0%nat [] [] in
  exists env w',
    encrypt toy_strict (SStr "text") (SStr "secret") w = (inr env, w')
    /\ dom env = list_to_set core_fields ∪ (dom ctx ∖ list_to_set Object_prototype).
Proof.
  intros ctx w.
  destruct (encrypt_decrypt toy_strict (toy_ok _) w "text" "secret" (SStr "secret") 64000)
    as (env & w' & salt & iv & key & v & Henc & _);
    [reflexivity|reflexivity|lia|reflexivity|discriminate|discriminate|].
  exists env, w'. split; [exact Henc|].
  apply (envelope_fields toy_strict w w' (SStr "text") (SStr "secret") env Henc).
Defined.

